(** * ApiClient: the typed HTTP request pipeline of nubi-lab-utils

    A shallow embedding of [src/utils/core/ApiClient.ts], of the query-string
    serializer of [src/utils/helpers/StringUtils.ts] that it calls and of
    [src/utils/core/Logger.ts], the logger it writes to.  The platform
    classes the client is written against ([URL], [Headers], [JSON],
    [AbortController], the logger and the injected [fetch]) appear either as
    small executable models or as fields of the [Platform] class; everything
    that the client itself computes is translated function by function. *)

From stdpp Require Import gmap strings list pretty.

#[local] Set Warnings "-clear-no-such-hyp".

Local Open Scope string_scope.
Local Open Scope Z_scope.

(** ** JavaScript strings (as byte strings) *)

Module JsString.

Definition toLowerAscii (c : Ascii.ascii) : Ascii.ascii :=
  let n := Ascii.N_of_ascii c in
  if ((65 <=? n)%N && (n <=? 90)%N)%bool then Ascii.ascii_of_N (n + 32) else c.

(** [String.prototype.toLowerCase], on the ASCII letters. *)
Fixpoint toLowerCase (s : string) : string :=
  match s with
  | EmptyString => EmptyString
  | String c s' => String (toLowerAscii c) (toLowerCase s')
  end.

(** [s.startsWith(p)] *)
Fixpoint startsWith (p s : string) : bool :=
  match p, s with
  | EmptyString, _ => true
  | String a p', String b s' => if decide (a = b) then startsWith p' s' else false
  | String _ _, EmptyString => false
  end.

(** [s.endsWith(p)] *)
Definition endsWith (p s : string) : bool :=
  startsWith (String.rev p) (String.rev s).

(** [s.includes(p)] *)
Fixpoint includes (p s : string) : bool :=
  startsWith p s ||
  match s with
  | EmptyString => false
  | String _ s' => includes p s'
  end.

(** [s.slice(1)] *)
Definition slice1 (s : string) : string :=
  match s with
  | EmptyString => EmptyString
  | String _ s' => s'
  end.

(** White space removed by [trim]: tab, line feed, vertical tab, form feed,
    carriage return and space. *)
Definition isWhiteSpace (c : Ascii.ascii) : bool :=
  let n := Ascii.N_of_ascii c in
  (((9 <=? n)%N && (n <=? 13)%N) || (n =? 32)%N)%bool.

Fixpoint trimStart (s : string) : string :=
  match s with
  | EmptyString => EmptyString
  | String c s' => if isWhiteSpace c then trimStart s' else s
  end.

Fixpoint trimEnd (s : string) : string :=
  match s with
  | EmptyString => EmptyString
  | String c s' =>
      match trimEnd s' with
      | EmptyString => if isWhiteSpace c then EmptyString else String c EmptyString
      | r => String c r
      end
  end.

Definition trim (s : string) : string := trimEnd (trimStart s).

(** Truthiness of a string value: only the empty string is falsy. *)
Definition truthy (s : string) : bool :=
  match s with
  | EmptyString => false
  | String _ _ => true
  end.

(** [/json/i.test(s)] *)
Definition test_json_i (s : string) : bool := includes "json" (toLowerCase s).

End JsString.

(** ** Locales and the built-in message tables *)

Inductive Locale : Type := en | es.

#[global] Instance Locale_eq_dec : EqDecision Locale.
Proof. solve_decision. Defined.

(** A [Partial<Record<number, string>>]. *)
Abbreviation MessageDict := (gmap Z string).

Definition DEFAULT_ERROR_MESSAGES (loc : Locale) : MessageDict :=
  match loc with
  | es => list_to_map
      [ (400, "La solicitud es inválida. Verifica los datos enviados.");
        (401, "Necesitas iniciar sesión para continuar.");
        (403, "No tienes permisos para realizar esta acción.");
        (404, "El recurso solicitado no fue encontrado.");
        (408, "La solicitud tardó demasiado en responder.");
        (429, "Demasiadas solicitudes. Intenta nuevamente más tarde.");
        (500, "Ocurrió un error interno en el servidor.");
        (502, "Puerta de enlace inválida.");
        (503, "Servicio no disponible temporalmente.");
        (504, "Tiempo de espera agotado.") ]
  | en => list_to_map
      [ (400, "Invalid request. Please check your data.");
        (401, "You must be signed in to continue.");
        (403, "You don't have permission for this action.");
        (404, "Resource not found.");
        (408, "Request timeout.");
        (429, "Too many requests. Try again later.");
        (500, "Internal server error.");
        (502, "Bad gateway.");
        (503, "Service unavailable.");
        (504, "Gateway timeout.") ]
  end.

Definition GENERIC_ERROR_MESSAGE (loc : Locale) (status : Z) (text : string) : string :=
  match loc with
  | es => JsString.trim ("Error de red (" +:+ pretty status +:+ " " +:+ text +:+ ")")
  | en => JsString.trim ("Network error (" +:+ pretty status +:+ " " +:+ text +:+ ")")
  end.

(** With two locales, the one that is left once [loc] has given nothing. *)
Definition otherLocale (loc : Locale) : Locale :=
  match loc with
  | es => en
  | en => es
  end.

(** [Array.from(new Set(xs))]: insertion order, first occurrence kept. *)
Fixpoint Set_insert_all {A} `{EqDecision A} (seen : list A) (xs : list A) : list A :=
  match xs with
  | [] => seen
  | x :: xs' =>
      if decide (x ∈ seen) then Set_insert_all seen xs'
      else Set_insert_all (seen ++ [x]) xs'
  end.

Definition Array_from_Set {A} `{EqDecision A} (xs : list A) : list A :=
  Set_insert_all [] xs.

(** The part of the client's configuration that message resolution reads:
    [this.locale] and [this.errorMessages]. *)
Record Messages : Type := mkMessages {
  msg_locale : Locale;
  msg_errorMessages : Locale -> option MessageDict
}.

(** [[override, this.locale, "es", "en"].filter(Boolean)] then de-duplicated. *)
Definition getLocalePreference (m : Messages) (override : option Locale) : list Locale :=
  Array_from_Set (option_list override ++ [msg_locale m; es; en]).

(** [{...DEFAULT_ERROR_MESSAGES[loc], ...(this.errorMessages[loc] ?? {})}] *)
Definition localeDict (m : Messages) (loc : Locale) : MessageDict :=
  default ∅ (msg_errorMessages m loc) ∪ DEFAULT_ERROR_MESSAGES loc.

(** The [for ... of] loop of [resolveErrorMessage]: the first truthy
    [dict[status]]. *)
Fixpoint firstMessage (m : Messages) (status : Z) (locales : list Locale) : option string :=
  match locales with
  | [] => None
  | loc :: rest =>
      match localeDict m loc !! status with
      | Some msg => if JsString.truthy msg then Some msg else firstMessage m status rest
      | None => firstMessage m status rest
      end
  end.

Definition resolveErrorMessage (m : Messages) (status : Z) (statusText : string)
    (overrideLocale : option Locale) : string :=
  match firstMessage m status (getLocalePreference m overrideLocale) with
  | Some msg => msg
  | None => GENERIC_ERROR_MESSAGE (msg_locale m) status statusText
  end.

(** ** Values exchanged with the platform *)

(** JSON values: what [response.json()] yields and what a plain-object body
    holds. *)
#[local] Set Warnings "-register-all".
Inductive Json : Type :=
| JNull
| JBool (b : bool)
| JNumber (n : Z)
| JString (s : string)
| JArray (items : list Json)
| JObject (fields : list (string * Json)).

(** The [body] of an [ApiError]: [null], a parsed JSON value or a text. *)
Inductive ErrorBody : Type :=
| ErrNull
| ErrJson (j : Json)
| ErrText (s : string).

(** [class ApiError extends Error] *)
Record ApiError : Type := mkApiError {
  err_status : Z;
  err_statusText : string;
  err_message : string;
  err_body : ErrorBody;
  err_isTimeout : bool
}.

(** Values that can be thrown or be the reason of a rejection: an
    [ApiError]; any other error object, kept as its [name] and [message]; a
    primitive value (a string, a number, a boolean), kept as its text;
    [undefined]; [null]. *)
Inductive Thrown : Type :=
| ThrownApiError (e : ApiError)
| ThrownError (name message : string)
| ThrownPrimitive (text : string)
| ThrownUndefined
| ThrownNull.

(** How a call completes. *)
Inductive Completion (A : Type) : Type :=
| Returns (a : A)
| Throws (e : Thrown).
Arguments Returns {A} a.
Arguments Throws {A} e.

(** [err.name]: the name of an error object, [undefined] on a primitive;
    on [undefined] and [null] the property read itself throws a [TypeError]. *)
Definition Thrown_name (e : Thrown) : Completion (option string) :=
  match e with
  | ThrownApiError _ => Returns (Some "ApiError")
  | ThrownError name _ => Returns (Some name)
  | ThrownPrimitive _ => Returns None
  | ThrownUndefined =>
      Throws (ThrownError "TypeError" "Cannot read properties of undefined (reading 'name')")
  | ThrownNull =>
      Throws (ThrownError "TypeError" "Cannot read properties of null (reading 'name')")
  end.

(** *** [Headers]

    Names are matched case-insensitively (kept lower-cased); [append] joins
    repeated names with a comma. *)
Abbreviation Headers := (gmap string string).
Abbreviation HeadersInit := (list (string * string)).

Definition Headers_get (name : string) (h : Headers) : option string :=
  h !! JsString.toLowerCase name.

Definition Headers_set (name value : string) (h : Headers) : Headers :=
  <[JsString.toLowerCase name := value]> h.

Definition Headers_append (name value : string) (h : Headers) : Headers :=
  match Headers_get name h with
  | Some old => Headers_set name (old +:+ ", " +:+ value) h
  | None => Headers_set name value h
  end.

(** [new Headers(init)] *)
Definition Headers_new (init : HeadersInit) : Headers :=
  foldl (λ h kv, Headers_append kv.1 kv.2 h) ∅ init.

(** [h.forEach((v, k) => f(k, v))], threading the effect of [f] on [acc]. *)
Definition Headers_forEach {A} (f : string → string → A → A) (h : Headers) (acc : A) : A :=
  foldl (λ a kv, f kv.1 kv.2 a) acc (map_to_list h).

(** Every name stored in a [Headers] object is lower-cased. *)
Definition lowerKeys (h : Headers) : Prop :=
  map_Forall (λ k _, JsString.toLowerCase k = k) h.

(** *** Request bodies, signals and [RequestInit] *)

Inductive Body : Type :=
| BodyString (s : string)
| BodyFormData (entries : list (string * string))
| BodyBlob (bytes : string)
| BodyArrayBuffer (bytes : string)
| BodyObject (fields : list (string * Json)).

Definition isFormData (b : option Body) : bool :=
  match b with
  | Some (BodyFormData _) => true
  | _ => false
  end.

(** Truthiness of a possibly [undefined] body: [undefined] and the empty
    string are falsy, every object is truthy. *)
Definition Body_truthy (b : option Body) : bool :=
  match b with
  | None => false
  | Some (BodyString s) => JsString.truthy s
  | Some _ => true
  end.

(** An [AbortSignal] is either the signal of the controller that [request]
    creates, or a token of the caller's. *)
Inductive AbortSignal : Type :=
| ControllerSignal
| CallerSignal (token : nat).

#[global] Instance AbortSignal_eq_dec : EqDecision AbortSignal.
Proof. solve_decision. Defined.

Record RequestOptions : Type := mkOptions {
  opt_searchParams : option (list (string * Json));
  opt_body : option Body;
  opt_headers : option HeadersInit;
  opt_errorLocale : option Locale;
  opt_timeoutMs : option N;
  opt_method : option string;
  opt_signal : option nat;
  opt_other : list (string * string)
}.

Definition noOptions : RequestOptions :=
  mkOptions None None None None None None None [].

(** [const { headers, body, timeoutMs, errorLocale, ...rest } = options]:
    what is left of the options once the four named members are taken out. *)
Record Rest : Type := mkRest {
  rest_searchParams : option (list (string * Json));
  rest_method : option string;
  rest_signal : option AbortSignal;
  rest_other : list (string * string)
}.

Definition restOf (o : RequestOptions) : Rest :=
  {| rest_searchParams := opt_searchParams o;
     rest_method := opt_method o;
     rest_signal := CallerSignal <$> opt_signal o;
     rest_other := opt_other o |}.

(** The object handed to the transport. *)
Record RequestInit : Type := mkInit {
  init_searchParams : option (list (string * Json));
  init_method : option string;
  init_other : list (string * string);
  init_headers : Headers;
  init_body : option Body;
  init_signal : option AbortSignal
}.

(** *** Responses and promises *)

Record Response : Type := mkResponse {
  resp_ok : bool;
  resp_status : Z;
  resp_statusText : string;
  resp_headers : Headers;
  resp_json : Completion Json;
  resp_text : Completion string
}.

(** A promise, by the time (in milliseconds after the call) at which it
    settles, if ever. *)
Inductive Promise (A : Type) : Type :=
| Resolves (t : N) (a : A)
| Rejects (t : N) (e : Thrown)
| NeverSettles.
Arguments Resolves {A} t a.
Arguments Rejects {A} t e.
Arguments NeverSettles {A}.

(** [setTimeout(callback, ms)] (Node.js): a delay below 1 or above
    [TIMEOUT_MAX] = 2^31 - 1 is replaced by 1. *)
Definition TIMEOUT_MAX : N := 2147483647.

Definition timerDelay (ms : N) : N :=
  if ((1 <=? ms) && (ms <=? TIMEOUT_MAX))%N then ms else 1%N.

(** Whether the promise is settled by the time a timer set to [ms]
    milliseconds fires.  The transport is called before the timer is set, so
    a settlement due at the same time as the timer comes first. *)
Definition settlesBefore {A} (p : Promise A) (ms : N) : bool :=
  match p with
  | Resolves t _ | Rejects t _ => (t <=? timerDelay ms)%N
  | NeverSettles => false
  end.

(** What [request] resolves to. *)
Inductive Payload : Type :=
| PUndefined
| PJson (data : Json)
| PText (text : string).

(** ** Observable effects *)

Inductive Event : Type :=
| EvLogRequest (method : option string) (url : string) (body : option Body)
| EvFetch (url : string) (init : RequestInit)
| EvAbort (s : AbortSignal)
| EvReadJson
| EvReadText
| EvLogResponse (status : Z) (url : string) (payload : Payload)
| EvLogError (path : string) (method : option string) (err : Thrown).

(** The configured logger, by what a call of [debug] or [error] does: the
    call, given as the event that records it, returns or throws.  It throws
    when a transport of the logger throws (see [Logger.callTransports]
    below); it returns also when the logger's level filters the entry out. *)
Abbreviation LoggerHandle := (Event → Completion unit).

(** Computations: a completion and the events emitted so far, oldest first. *)
Definition M (A : Type) : Type := list Event → Completion A * list Event.

Definition ret {A} (a : A) : M A := λ tr, (Returns a, tr).
Definition throw {A} (e : Thrown) : M A := λ tr, (Throws e, tr).
Definition bind {A B} (c : M A) (k : A → M B) : M B :=
  λ tr, match c tr with
        | (Returns a, tr') => k a tr'
        | (Throws e, tr') => (Throws e, tr')
        end.
Definition emit (e : Event) : M unit := λ tr, (Returns tt, (tr ++ [e])%list).
Definition lift {A} (c : Completion A) : M A := λ tr, (c, tr).
Definition tryCatch {A} (c : M A) (handler : Thrown → M A) : M A :=
  λ tr, match c tr with
        | (Returns a, tr') => (Returns a, tr')
        | (Throws e, tr') => handler e tr'
        end.
Definition run {A} (c : M A) : Completion A * list Event := c [].

Declare Scope js_scope.
Delimit Scope js_scope with js.
Notation "x <- c ;; k" := (bind c (λ x, k))
  (at level 100, c at next level, right associativity) : js_scope.
Notation "c ;;; k" := (bind c (λ _, k))
  (at level 100, right associativity) : js_scope.

Local Open Scope js_scope.

(** ** The platform

    [URL], [JSON.stringify] and the global [fetch] belong to the runtime, and
    [StringUtils.toQueryString] to another module; the client only calls
    them.  [URL_parse] and [URL_resolve] are [None] where the constructor
    throws a [TypeError]. *)
Class Platform : Type := {
  URL : Type;
  URL_parse : string → option URL;
  URL_resolve : string → URL → option URL;
  URL_search : URL → string;
  URL_set_search : string → URL → URL;
  URL_toString : URL → string;
  JSON_stringify : Json → string;
  JSON_stringify_nonempty : ∀ j, JsString.truthy (JSON_stringify j) = true;
  toQueryString : list (string * Json) → string;
  globalFetch : string → RequestInit → Promise Response
}.

Definition Invalid_URL : Thrown := ThrownError "TypeError" "Invalid URL".

(** *** What the client relies on in [URL]

    Base URLs and paths in plain characters: a host of lower-case letters in
    labels separated by dots, paths of letters, digits, "-", "_" and "/". *)
Definition slash : Ascii.ascii := Ascii.ascii_of_N 47.
Definition questionMark : Ascii.ascii := Ascii.ascii_of_N 63.
Definition colon : Ascii.ascii := Ascii.ascii_of_N 58.
Definition dot : Ascii.ascii := Ascii.ascii_of_N 46.

Definition isLowerLetter (c : Ascii.ascii) : bool :=
  let n := Ascii.N_of_ascii c in ((97 <=? n) && (n <=? 122))%N.

Definition isPathChar (c : Ascii.ascii) : bool :=
  let n := Ascii.N_of_ascii c in
  (((97 <=? n) && (n <=? 122)) || ((65 <=? n) && (n <=? 90)) || ((48 <=? n) && (n <=? 57))
   || (n =? 45) || (n =? 95) || (n =? 47))%N.

Fixpoint hostLabels (afterDot : bool) (s : string) : bool :=
  match s with
  | EmptyString => negb afterDot
  | String c s' =>
      if isLowerLetter c then hostLabels false s'
      else if decide (c = dot) then negb afterDot && hostLabels true s'
      else false
  end.

Definition plainHost (host : string) : bool := hostLabels true host.

Fixpoint pathChars (s : string) : bool :=
  match s with
  | EmptyString => true
  | String c s' => isPathChar c && pathChars s'
  end.

(** A relative path: it does not start with "/". *)
Definition plainPath (path : string) : bool :=
  pathChars path && negb (JsString.startsWith "/" path).

(** The directories of a base: empty, or ending in "/". *)
Definition plainDirs (dirs : string) : bool :=
  pathChars dirs && (negb (JsString.truthy dirs) || JsString.endsWith "/" dirs).

Definition originOf (secure : bool) (host : string) : string :=
  (if secure then "https://" else "http://") +:+ host.

(** The last character of a string, and whether a character is absent from
    it. *)
Fixpoint lastChar (s : string) : option Ascii.ascii :=
  match s with
  | EmptyString => None
  | String c EmptyString => Some c
  | String _ s' => lastChar s'
  end.

Fixpoint lacks (a : Ascii.ascii) (s : string) : bool :=
  match s with
  | EmptyString => true
  | String b s' => negb (bool_decide (a = b)) && lacks a s'
  end.

(** Resolution against a base [origin/dirs] (URL Standard): a path that
    does not start with "/" is appended to the directories of the base; a
    path that starts with "/" replaces them. *)
Class WhatwgURL (P : Platform) : Prop := {
  URL_resolve_relative : ∀ secure host dirs path base,
    plainHost host = true → plainDirs dirs = true → plainPath path = true →
    URL_parse (originOf secure host +:+ "/" +:+ dirs) = Some base →
    ∃ u, URL_resolve path base = Some u ∧
         URL_toString u = originOf secure host +:+ "/" +:+ dirs +:+ path;
  URL_resolve_absolute : ∀ secure host dirs path base,
    plainHost host = true → plainDirs dirs = true → plainPath path = true →
    URL_parse (originOf secure host +:+ "/" +:+ dirs) = Some base →
    ∃ u, URL_resolve ("/" +:+ path) base = Some u ∧
         URL_toString u = originOf secure host +:+ "/" +:+ path;
  URL_parse_base : ∀ secure host dirs,
    plainHost host = true → plainDirs dirs = true →
    is_Some (URL_parse (originOf secure host +:+ "/" +:+ dirs))
}.

(** The error produced when the timer wins the race. *)
Definition timeoutError : ApiError :=
  mkApiError 408 "Timeout" "Request timeout" ErrNull true.

Section Pipeline.
Context {P : Platform}.

Record ApiClientInterceptors : Type := mkInterceptors {
  icpt_request : option (string → RequestInit → Completion (string * RequestInit));
  icpt_response : option (Response → Completion Response)
}.

Record ApiClientConfig : Type := mkConfig {
  cfg_baseUrl : string;
  cfg_defaultHeaders : option HeadersInit;
  cfg_fetchImpl : option (string → RequestInit → Promise Response);
  cfg_locale : option Locale;
  cfg_errorMessages : option (Locale → option MessageDict);
  cfg_timeoutMs : option N;
  cfg_interceptors : option ApiClientInterceptors;
  cfg_logger : option LoggerHandle
}.

(** The private fields of an [ApiClient]. *)
Record ApiClient : Type := mkClient {
  baseUrl : URL;
  headers : HeadersInit;
  fetchImpl : string → RequestInit → Promise Response;
  locale : Locale;
  errorMessages : Locale → option MessageDict;
  timeoutMs : N;
  interceptors : option ApiClientInterceptors;
  logger : option LoggerHandle
}.

(** [constructor] *)
Definition createApiClient (cfg : ApiClientConfig) : Completion ApiClient :=
  let base := cfg_baseUrl cfg in
  match URL_parse (if JsString.endsWith "/" base then base else base +:+ "/") with
  | None => Throws Invalid_URL
  | Some u =>
      Returns {| baseUrl := u;
                 headers := default [] (cfg_defaultHeaders cfg);
                 fetchImpl := default globalFetch (cfg_fetchImpl cfg);
                 locale := default es (cfg_locale cfg);
                 errorMessages := default (λ _, None) (cfg_errorMessages cfg);
                 timeoutMs := default 15000%N (cfg_timeoutMs cfg);
                 interceptors := cfg_interceptors cfg;
                 logger := cfg_logger cfg |}
  end.

Definition messagesOf (c : ApiClient) : Messages :=
  mkMessages (locale c) (errorMessages c).

(** [this.logger?.debug(...)] and [this.logger?.error(...)]: with a logger
    configured, the call is made and returns or throws. *)
Definition log (c : ApiClient) (e : Event) : M unit :=
  match logger c with
  | Some handle => emit e ;;; lift (handle e)
  | None => ret tt
  end.

(** How the call completes. *)
Definition logResult (c : ApiClient) (e : Event) : Completion unit :=
  match logger c with
  | Some handle => handle e
  | None => Returns tt
  end.

(** No call of the logger throws: there is no logger, or its calls return. *)
Definition quietLogger (c : ApiClient) : Prop :=
  ∀ e, logResult c e = Returns tt.

(** The events of a call that returns. *)
Definition logged (c : ApiClient) (e : Event) : list Event :=
  match logger c with
  | Some _ => [e]
  | None => []
  end.

(** [mergeHeaders] *)
Definition mergeHeaders (c : ApiClient) (overrides : option HeadersInit) : Headers :=
  let hs := Headers_new (headers c) in
  match overrides with
  | Some o =>
      Headers_forEach (λ k v acc, Headers_set k v acc) (Headers_new o) hs
  | None => hs
  end.

(** [prepareBody] *)
Definition prepareBody (body : option Body) : option Body :=
  if negb (Body_truthy body) then None
  else match body with
       | Some (BodyObject fields) => Some (BodyString (JSON_stringify (JObject fields)))
       | other => other
       end.

(** [withTimeout]: the promise raced against [setTimeout(..., ms)]; the
    promise decides when it is settled by the time the timer fires, the
    timer's rejection otherwise. *)
Definition withTimeout {A} (promise : Promise A) (ms : N) : M A :=
  if settlesBefore promise ms then
    match promise with
    | Resolves _ res => ret res
    | Rejects _ err => throw err
    | NeverSettles => throw (ThrownApiError timeoutError)
    end
  else throw (ThrownApiError timeoutError).

(** [buildUrl] *)
Definition buildUrl (c : ApiClient) (path : string)
    (params : option (list (string * Json))) : Completion string :=
  let normalized := if JsString.startsWith "/" path then JsString.slice1 path else path in
  match URL_resolve normalized (baseUrl c) with
  | None => Throws Invalid_URL
  | Some url =>
      let url :=
        match params with
        | Some ps =>
            let queryString := toQueryString ps in
            if JsString.truthy queryString then
              URL_set_search
                (if JsString.truthy (URL_search url)
                 then URL_search url +:+ "&" +:+ queryString
                 else "?" +:+ queryString) url
            else url
        | None => url
        end in
      Returns (URL_toString url)
  end.

Definition readJson (r : Response) : M Json := emit EvReadJson ;;; lift (resp_json r).
Definition readText (r : Response) : M string := emit EvReadText ;;; lift (resp_text r).

(** [toApiError] *)
Definition toApiError (c : ApiClient) (response : Response) (loc : option Locale) : M ApiError :=
  body <- tryCatch
            (let type := default "" (Headers_get "content-type" (resp_headers response)) in
             if JsString.includes "json" type
             then j <- readJson response ;; ret (ErrJson j)
             else s <- readText response ;; ret (ErrText s))
            (λ _, ret ErrNull) ;;
  let message :=
    resolveErrorMessage (messagesOf c) (resp_status response) (resp_statusText response) loc in
  ret (mkApiError (resp_status response) (resp_statusText response) message body false).

(** [this.interceptors?.response ? await this.interceptors.response(response)
    : response] *)
Definition finalResponseOf (c : ApiClient) (response : Response) : Completion Response :=
  match interceptors c ≫= icpt_response with
  | Some f => f response
  | None => Returns response
  end.

(** The body of the [try] block of [request]. *)
Definition dispatch (c : ApiClient) (url : string) (init : RequestInit)
    (timeout : N) (errorLocale : option Locale) : M Payload :=
  emit (EvFetch url init) ;;;
  response <- withTimeout (fetchImpl c url init) timeout ;;
  finalResponse <- lift (finalResponseOf c response) ;;
  if negb (resp_ok finalResponse) then
    e <- toApiError c finalResponse errorLocale ;; throw (ThrownApiError e)
  else if (resp_status finalResponse =? 204)
          || negb (JsString.truthy
                     (default "" (Headers_get "content-length" (resp_headers finalResponse))))
  then ret PUndefined
  else
    let contentType := default "" (Headers_get "content-type" (resp_headers finalResponse)) in
    if JsString.test_json_i contentType then
      data <- readJson finalResponse ;;
      log c (EvLogResponse (resp_status finalResponse) url (PJson data)) ;;;
      ret (PJson data)
    else
      text <- readText finalResponse ;;
      log c (EvLogResponse (resp_status finalResponse) url (PText text)) ;;;
      ret (PText text).

(** The [catch] block of [request]. *)
Definition onError (c : ApiClient) (path : string) (method : option string)
    (err : Thrown) : M Payload :=
  name <- lift (Thrown_name err) ;;
  if decide (name = Some "AbortError") then
    throw (ThrownApiError (mkApiError 408 "Timeout" "Request timeout" ErrNull true))
  else
    log c (EvLogError path method err) ;;;
    throw err.

(** The [RequestInit] that [request] builds, before any interceptor:
    [{ ...rest, headers, body: preparedBody, signal }] with the signal of the
    fresh controller. *)
Definition buildInit (c : ApiClient) (options : RequestOptions) : RequestInit :=
  let rest := restOf options in
  let headers := mergeHeaders c (opt_headers options) in
  let preparedBody := prepareBody (opt_body options) in
  let headers :=
    if Body_truthy preparedBody && negb (isFormData (opt_body options))
    then Headers_set "Content-Type" "application/json" headers
    else headers in
  let signal := ControllerSignal in
  {| init_searchParams := rest_searchParams rest;
     init_method := rest_method rest;
     init_other := rest_other rest;
     init_headers := headers;
     init_body := preparedBody;
     init_signal := Some signal |}.

(** [options.timeoutMs ?? this.timeoutMs] *)
Definition effectiveTimeout (c : ApiClient) (options : RequestOptions) : N :=
  default (timeoutMs c) (opt_timeoutMs options).

(** The first part of [request], up to and including the request
    interceptor: the URL and the [RequestInit] that go to the transport. *)
Definition prepareRequest (c : ApiClient) (path : string) (options : RequestOptions)
    : Completion (string * RequestInit) :=
  match buildUrl c path (opt_searchParams options) with
  | Throws e => Throws e
  | Returns url =>
      let init := buildInit c options in
      match interceptors c ≫= icpt_request with
      | Some f => f url init
      | None => Returns (url, init)
      end
  end.

(** [request] *)
Definition request (c : ApiClient) (path : string) (options : RequestOptions) : M Payload :=
  ui <- lift (prepareRequest c path options) ;;
  let url := ui.1 in
  let init := ui.2 in
  let rest := restOf options in
  let timeout := effectiveTimeout c options in
  log c (EvLogRequest (rest_method rest) url (opt_body options)) ;;;
  tryCatch (dispatch c url init timeout (opt_errorLocale options))
           (onError c path (rest_method rest)).

Definition withMethod (options : RequestOptions) (method : string) : RequestOptions :=
  mkOptions (opt_searchParams options) (opt_body options) (opt_headers options)
            (opt_errorLocale options) (opt_timeoutMs options) (Some method)
            (opt_signal options) (opt_other options).

Definition get (c : ApiClient) (path : string) (options : RequestOptions) : M Payload :=
  request c path (withMethod options "GET").
Definition post (c : ApiClient) (path : string) (options : RequestOptions) : M Payload :=
  request c path (withMethod options "POST").
Definition put (c : ApiClient) (path : string) (options : RequestOptions) : M Payload :=
  request c path (withMethod options "PUT").
Definition patch (c : ApiClient) (path : string) (options : RequestOptions) : M Payload :=
  request c path (withMethod options "PATCH").
Definition delete (c : ApiClient) (path : string) (options : RequestOptions) : M Payload :=
  request c path (withMethod options "DELETE").

End Pipeline.

(** ** A small concrete platform

    Enough of a runtime to evaluate the client on concrete requests: URLs of
    the schemes http and https as origin, path and query, with the
    resolution of scheme-relative, path-absolute and path-relative
    references (no dot segments, fragments, ports or percent-encoding), and
    JSON printed compactly (strings without escapes). *)
Module Demo.

Record Url : Type := mkUrl {
  url_origin : string;
  url_pathname : string;
  url_search : string
}.

(** [s] cut at the first [a]: what comes before it, and the rest from [a]
    on. *)
Fixpoint cutAt (a : Ascii.ascii) (s : string) : string * string :=
  match s with
  | EmptyString => (EmptyString, EmptyString)
  | String b s' =>
      if decide (a = b) then (EmptyString, s)
      else let r := cutAt a s' in (String b r.1, r.2)
  end.

(** [s.slice(n)] *)
Fixpoint sliceFrom (n : nat) (s : string) : string :=
  match n, s with
  | O, _ => s
  | S n', String _ s' => sliceFrom n' s'
  | S _, EmptyString => EmptyString
  end.

(** The scheme with its "://", and what follows it. *)
Definition schemeOf (s : string) : option (string * string) :=
  if JsString.startsWith "https://" s then Some ("https://", sliceFrom 8 s)
  else if JsString.startsWith "http://" s then Some ("http://", sliceFrom 7 s)
  else None.

(** [new URL(s)] *)
Definition parse (s : string) : option Url :=
  match schemeOf s with
  | None => None
  | Some (scheme, rest) =>
      let location := cutAt questionMark rest in
      let hostPath := cutAt slash location.1 in
      if JsString.truthy hostPath.1 then
        Some (mkUrl (scheme +:+ hostPath.1)
                    (if JsString.truthy hostPath.2 then hostPath.2 else "/")
                    location.2)
      else None
  end.

(** The path up to and including its last "/". *)
Fixpoint directory (path : string) : string :=
  match path with
  | EmptyString => EmptyString
  | String c rest =>
      if JsString.includes "/" path then String c (directory rest) else EmptyString
  end.

(** [new URL(rel, base)] *)
Definition resolve (rel : string) (base : Url) : option Url :=
  if JsString.startsWith "//" rel then
    match schemeOf (url_origin base) with
    | Some (scheme, _) => parse (scheme +:+ sliceFrom 2 rel)
    | None => None
    end
  else if JsString.startsWith "/" rel then
    let r := cutAt questionMark rel in
    Some (mkUrl (url_origin base) r.1 r.2)
  else
    match parse rel with
    | Some u => Some u
    | None =>
        let r := cutAt questionMark rel in
        if JsString.truthy r.1 then
          Some (mkUrl (url_origin base) (directory (url_pathname base) +:+ r.1) r.2)
        else
          Some (mkUrl (url_origin base) (url_pathname base)
                      (if JsString.truthy r.2 then r.2 else url_search base))
    end.

Definition toString (u : Url) : string :=
  url_origin u +:+ url_pathname u +:+ url_search u.

Definition dquote : string := String (Ascii.ascii_of_N 34) EmptyString.

Fixpoint stringify (j : Json) : string :=
  match j with
  | JNull => "null"
  | JBool b => if b then "true" else "false"
  | JNumber n => pretty n
  | JString s => dquote +:+ s +:+ dquote
  | JArray items =>
      "[" +:+ (fix go (l : list Json) : string :=
                 match l with
                 | [] => EmptyString
                 | [x] => stringify x
                 | x :: l' => stringify x +:+ "," +:+ go l'
                 end) items +:+ "]"
  | JObject fields =>
      "{" +:+ (fix go (l : list (string * Json)) : string :=
                 match l with
                 | [] => EmptyString
                 | [(k, x)] => dquote +:+ k +:+ dquote +:+ ":" +:+ stringify x
                 | (k, x) :: l' =>
                     dquote +:+ k +:+ dquote +:+ ":" +:+ stringify x +:+ "," +:+ go l'
                 end) fields +:+ "}"
  end.

Definition queryString (ps : list (string * Json)) : string :=
  String.concat "&" (map (λ kv, kv.1 +:+ "=" +:+ stringify kv.2) ps).

Lemma pretty_N_go_truthy (x : N) (s : string) :
  JsString.truthy s = true → JsString.truthy (pretty_N_go x s) = true.
Proof.
  revert s. induction (N.lt_wf_0 x) as [x _ IH]; intros s Hs.
  destruct (decide (x = 0)%N) as [->|Hx].
  - by rewrite pretty_N_go_0.
  - rewrite pretty_N_go_step by lia. apply IH; [apply N.div_lt; lia | done].
Qed.

Lemma pretty_N_truthy (x : N) : JsString.truthy (pretty x) = true.
Proof.
  unfold pretty, pretty_N. case_decide; [done|].
  rewrite pretty_N_go_step by lia. by apply pretty_N_go_truthy.
Qed.

Lemma pretty_Z_truthy (n : Z) : JsString.truthy (pretty n) = true.
Proof. destruct n; [done | apply pretty_N_truthy | done]. Qed.

Lemma stringify_nonempty j : JsString.truthy (stringify j) = true.
Proof. destruct j as [| [] | | | |]; try reflexivity. apply pretty_Z_truthy. Qed.

#[export] Instance platform : Platform := {|
  URL := Url;
  URL_parse := parse;
  URL_resolve := resolve;
  URL_search := url_search;
  URL_set_search q u := mkUrl (url_origin u) (url_pathname u) q;
  URL_toString := toString;
  JSON_stringify := stringify;
  JSON_stringify_nonempty := stringify_nonempty;
  toQueryString := queryString;
  globalFetch _ _ := NeverSettles
|}.

(** A transport that answers every call with the same promise. *)
Definition transport (p : Promise Response) : string → RequestInit → Promise Response :=
  λ _ _, p.

(** A logger whose calls return. *)
Definition quiet : LoggerHandle := λ _, Returns tt.

(** A logger with a transport that throws. *)
Definition transportFailure : Thrown := ThrownError "Error" "transport failure".
Definition throwing : LoggerHandle := λ _, Throws transportFailure.

Definition config (base : string) (p : Promise Response) : ApiClientConfig :=
  mkConfig base None (Some (transport p)) (Some es) None None None (Some quiet).

(** The base as the constructor stores it (where [parse] fails, which it
    does for none of the bases below, a URL that prints as [base]). *)
Definition baseOf (base : string) : Url :=
  default (mkUrl base EmptyString EmptyString) (parse base).

Definition client (base : string) (p : Promise Response) : ApiClient :=
  mkClient (baseOf base) [] (transport p) es (λ _, None) 15000%N None (Some quiet).

Definition api : string := "https://api.test/".

(** A logger with a transport that throws on error entries only. *)
Definition throwingOnError : LoggerHandle :=
  λ e, match e with
       | EvLogError _ _ _ => Throws transportFailure
       | _ => Returns tt
       end.

(** A client like [client api] with interceptors. *)
Definition clientWith (icpt : ApiClientInterceptors) (p : Promise Response) : ApiClient :=
  mkClient (baseOf api) [] (transport p) es (λ _, None) 15000%N (Some icpt) (Some quiet).

(** A client like [client api] with another logger, or none. *)
Definition clientLogging (handle : option LoggerHandle) (p : Promise Response) : ApiClient :=
  mkClient (baseOf api) [] (transport p) es (λ _, None) 15000%N None handle.

(** A request interceptor that replaces the body. *)
Definition replacingBody : ApiClientInterceptors :=
  mkInterceptors
    (Some (λ url init,
             Returns (url, mkInit (init_searchParams init) (init_method init)
                                  (init_other init) (init_headers init)
                                  (Some (BodyString "replaced")) (init_signal init))))
    None.

Definition users : Json := JArray [JObject [("id", JString "1")]].

(** [{status: 200, headers: {content-type: "application/json"}, json: () =>
    [{id: "1"}]}] *)
Definition usersResponse : Response :=
  mkResponse true 200 "OK" (Headers_new [("content-type", "application/json")])
             (Returns users) (Returns "[{id:1}]").

(** The same response with a [Content-Length]. *)
Definition usersResponseSized : Response :=
  mkResponse true 200 "OK"
             (Headers_new [("Content-Type", "application/json"); ("Content-Length", "12")])
             (Returns users) (Returns "[{id:1}]").

(** A 204 that still announces JSON. *)
Definition noContent : Response :=
  mkResponse true 204 "No Content"
             (Headers_new [("Content-Type", "application/json"); ("Content-Length", "2")])
             (Returns (JObject [])) (Returns "{}").

(** A 200 with [Content-Length: 0] and an empty text body. *)
Definition zeroLength : Response :=
  mkResponse true 200 "OK" (Headers_new [("Content-Length", "0")])
             (Throws (ThrownError "SyntaxError" "Unexpected end of JSON input"))
             (Returns EmptyString).

(** [{status: 404}] *)
Definition notFound : Response :=
  mkResponse false 404 "Not Found" ∅ (Returns JNull) (Returns "Not Found").

Definition withEnglish : RequestOptions :=
  mkOptions None None None (Some en) None None None [].

Definition fetchFailed : Thrown := ThrownError "TypeError" "fetch failed".

Definition withTimeoutMs (ms : N) : RequestOptions :=
  mkOptions None None None None (Some ms) None None [].

Definition withSignal (token : nat) : RequestOptions :=
  mkOptions None None None None None None (Some token) [].

Definition withBody (body : Body) (hs : option HeadersInit) : RequestOptions :=
  mkOptions None (Some body) hs None None None None [].

(** Overrides whose "es" entry for 404 is the empty string. *)
Definition emptyOverride : Messages :=
  mkMessages es (λ loc, match loc with
                        | es => Some {[ 404 := EmptyString ]}
                        | en => None
                        end).

End Demo.

(** ** Message resolution as the specification words it

    The locale preference list is the per-call override (if given), the
    configured locale, "es" and "en", with duplicates removed and first
    occurrences kept; each locale is looked up in the configured overrides
    merged over the built-in table, overrides winning, and the first hit is
    returned.  A hit is an entry holding a message; an empty message is no
    message. *)
Module Spec.

Fixpoint dedup (l : list Locale) : list Locale :=
  match l with
  | [] => []
  | x :: l' => x :: filter (λ y, y ≠ x) (dedup l')
  end.

Definition localePreference (configured : Locale) (override : option Locale) : list Locale :=
  dedup (option_list override ++ [configured; es; en]).

Definition lookupMessage (overrides : Locale → option MessageDict)
    (status : Z) (loc : Locale) : option string :=
  match overrides loc ≫= (λ d, d !! status) with
  | Some msg => Some msg
  | None => DEFAULT_ERROR_MESSAGES loc !! status
  end.

Definition hit (overrides : Locale → option MessageDict)
    (status : Z) (loc : Locale) : option string :=
  msg ← lookupMessage overrides status loc;
  if decide (msg = EmptyString) then None else Some msg.

Definition resolve (m : Messages) (status : Z) (statusText : string)
    (override : option Locale) : string :=
  default (GENERIC_ERROR_MESSAGE (msg_locale m) status statusText)
          (head (omap (hit (msg_errorMessages m) status)
                      (localePreference (msg_locale m) override))).

End Spec.

(** ** [StringUtils.toQueryString]

    The serializer that [buildUrl] calls.  Parameter values are the
    JavaScript values that can occur in [searchParams]: [undefined], [null],
    booleans, numbers (integers), strings, arrays and plain objects, an
    object being the list of its entries in the order of [Object.entries].
    Strings are byte strings in UTF-8, on which [encodeURIComponent] works
    byte by byte.  [localeCompare] is the platform's collation and a
    parameter; [Array.prototype.sort] is stable. *)
Module StringUtils.

Inductive Value : Type :=
| VUndefined
| VNull
| VBool (b : bool)
| VNumber (n : Z)
| VString (s : string)
| VArray (items : list Value)
| VObject (entries : list (string * Value)).

Inductive ArrayFormat : Type := FormatRepeat | FormatBracket | FormatComma.

(** [QueryStringOptions]: every member is optional. *)
Record QueryStringOptions : Type := mkQueryStringOptions {
  qs_arrayFormat : option ArrayFormat;
  qs_skipNull : option bool;
  qs_skipEmptyString : option bool;
  qs_encode : option bool;
  qs_sortKeys : option bool
}.

(** [Required<QueryStringOptions>] *)
Record Options : Type := mkQueryOptions {
  arrayFormat : ArrayFormat;
  skipNull : bool;
  skipEmptyString : bool;
  encode : bool;
  sortKeys : bool
}.

Definition DEFAULT_QUERY_OPTIONS : Options :=
  mkQueryOptions FormatRepeat true false true true.

Definition noCustomOptions : QueryStringOptions :=
  mkQueryStringOptions None None None None None.

(** [{ ...DEFAULT_QUERY_OPTIONS, ...customOptions }] *)
Definition mergeOptions (custom : QueryStringOptions) : Options :=
  {| arrayFormat := default (arrayFormat DEFAULT_QUERY_OPTIONS) (qs_arrayFormat custom);
     skipNull := default (skipNull DEFAULT_QUERY_OPTIONS) (qs_skipNull custom);
     skipEmptyString :=
       default (skipEmptyString DEFAULT_QUERY_OPTIONS) (qs_skipEmptyString custom);
     encode := default (encode DEFAULT_QUERY_OPTIONS) (qs_encode custom);
     sortKeys := default (sortKeys DEFAULT_QUERY_OPTIONS) (qs_sortKeys custom) |}.

Abbreviation QueryPair := (string * string)%type.

(** [String(value)]; inside an array, [join] prints [null] and [undefined]
    as the empty string. *)
Fixpoint String_of (v : Value) : string :=
  match v with
  | VUndefined => "undefined"
  | VNull => "null"
  | VBool b => if b then "true" else "false"
  | VNumber n => pretty n
  | VString s => s
  | VArray items =>
      String.concat ","
        (map (λ x, match x with
                   | VUndefined | VNull => EmptyString
                   | _ => String_of x
                   end) items)
  | VObject _ => "[object Object]"
  end.

(** [safeString] *)
Definition safeString (v : Value) : string :=
  match v with
  | VNull | VUndefined => EmptyString
  | _ => String_of v
  end.

(** [serializeValue] *)
Definition serializeValue (v : Value) : string :=
  match v with
  | VBool b => if b then "true" else "false"
  | VNumber _ | VString _ => String_of v
  | _ => safeString v
  end.

(** The characters that [encodeURIComponent] leaves alone. *)
Definition isUnreserved (a : Ascii.ascii) : bool :=
  let n := Ascii.N_of_ascii a in
  (((48 <=? n)%N && (n <=? 57)%N) || ((65 <=? n)%N && (n <=? 90)%N)
   || ((97 <=? n)%N && (n <=? 122)%N)
   || bool_decide (n ∈ [45; 95; 46; 33; 126; 42; 39; 40; 41]%N))%bool.

Definition percent : Ascii.ascii := Ascii.ascii_of_N 37.

Definition hexDigit (n : N) : Ascii.ascii :=
  Ascii.ascii_of_N (if (n <? 10)%N then 48 + n else 55 + n).

Fixpoint encodeURIComponent (s : string) : string :=
  match s with
  | EmptyString => EmptyString
  | String a s' =>
      if isUnreserved a then String a (encodeURIComponent s')
      else
        let n := Ascii.N_of_ascii a in
        String percent (String (hexDigit (n / 16)) (String (hexDigit (n mod 16))
                                                          (encodeURIComponent s')))
  end.

(** [encodePair] *)
Definition encodePair (value : string) (encode : bool) : string :=
  if encode then encodeURIComponent value else value.

Section Sorting.
Variable localeCompare : string → string → comparison.

(** [entries.sort(([a], [b]) => a.localeCompare(b))]: a stable sort on the
    keys, whatever is attached to them. *)
Fixpoint insertEntry {A} (x : string * A) (l : list (string * A)) : list (string * A) :=
  match l with
  | [] => [x]
  | y :: l' =>
      match localeCompare x.1 y.1 with
      | Gt => y :: insertEntry x l'
      | _ => x :: l
      end
  end.

Definition sortEntries {A} (l : list (string * A)) : list (string * A) :=
  foldr insertEntry [] l.

(** [buildQueryPairs]: the pairs that the call pushes, in order.  For an
    object, the pairs of each entry are computed first and the entries put
    in order afterwards; the order depends on the keys alone, so this is the
    source's "sort, then recurse" ([sortEntries_values] below). *)
Fixpoint buildQueryPairs (options : Options) (key : string) (value : Value)
    : list QueryPair :=
  match value with
  | VUndefined => []
  | VNull => if skipNull options then [] else [(key, EmptyString)]
  | VArray items =>
      match items with
      | [] => []
      | _ :: _ =>
          match arrayFormat options with
          | FormatComma =>
              let serialized :=
                String.concat ","
                  (List.filter
                     (λ entry, negb (skipEmptyString options
                                     && bool_decide (entry = EmptyString)))
                     (map serializeValue items)) in
              if JsString.truthy serialized || negb (skipEmptyString options)
              then [(key, serialized)] else []
          | format =>
              let nextKey :=
                match format with
                | FormatBracket => key +:+ "[]"
                | _ => key
                end in
              concat (map (buildQueryPairs options nextKey) items)
          end
      end
  | VObject entries =>
      let results :=
        map (λ '(childKey, childValue),
               (childKey,
                buildQueryPairs options
                  (if JsString.truthy key then key +:+ "[" +:+ childKey +:+ "]"
                   else childKey)
                  childValue)) entries in
      concat (map snd (if sortKeys options then sortEntries results else results))
  | _ =>
      let serialized := serializeValue value in
      if skipEmptyString options && bool_decide (serialized = EmptyString) then []
      else [(key, serialized)]
  end.

(** The loop of [toQueryString] over the entries of [params]. *)
Definition queryPairs (options : Options) (entries : list (string * Value))
    : list QueryPair :=
  let entries := if sortKeys options then sortEntries entries else entries in
  concat (map (λ '(key, value), buildQueryPairs options key value) entries).

(** [toQueryString] *)
Definition toQueryString (params : option (list (string * Value)))
    (customOptions : QueryStringOptions) : string :=
  match params with
  | None => EmptyString
  | Some entries =>
      let options := mergeOptions customOptions in
      String.concat "&"
        (map (λ '(key, value),
                encodePair key (encode options) +:+ "=" +:+ encodePair value (encode options))
             (queryPairs options entries))
  end.

End Sorting.

(** A parameter value that is a JSON value. *)
Fixpoint ofJson (j : Json) : Value :=
  match j with
  | JNull => VNull
  | JBool b => VBool b
  | JNumber n => VNumber n
  | JString s => VString s
  | JArray items => VArray (map ofJson items)
  | JObject fields => VObject (map (λ '(k, x), (k, ofJson x)) fields)
  end.

(** The separators of a query string. *)
Definition ampersand : Ascii.ascii := Ascii.ascii_of_N 38.
Definition equalsSign : Ascii.ascii := Ascii.ascii_of_N 61.

(** How often a character occurs in a string. *)
Fixpoint countChar (a : Ascii.ascii) (s : string) : nat :=
  match s with
  | EmptyString => 0
  | String b s' => (if decide (a = b) then 1 else 0) + countChar a s'
  end.

(** Values for which no pair is produced when nulls are skipped. *)
Definition isNothing (v : Value) : bool :=
  match v with
  | VUndefined | VNull | VArray [] | VObject [] => true
  | _ => false
  end.

End StringUtils.

(** ** [Logger]

    The logger whose [debug] and [error] the client calls.  A transport is
    known by what a call of it does: it returns (possibly a promise that is
    fulfilled), it returns a promise that is rejected, or it throws.  The
    default level (read from the environment) and the console transport are
    the platform's and are parameters; the timestamp of an entry is the clock
    reading handed to [log]. *)
Module Logger.

Inductive LogLevel : Type := silent | error | warn | info | debug.

#[global] Instance LogLevel_eq_dec : EqDecision LogLevel.
Proof. solve_decision. Defined.

Record LogEntry : Type := mkEntry {
  entry_level : LogLevel;
  entry_message : string;
  entry_namespace : option string;
  entry_timestamp : N;
  entry_context : option (list (string * Json));
  entry_error : option Thrown
}.

Inductive TransportResult : Type :=
| Delivered
| RejectsLater (err : Thrown)
| ThrowsNow (err : Thrown).

Abbreviation LogTransport := (LogEntry → TransportResult).

Record LoggerOptions : Type := mkLoggerOptions {
  lo_namespace : option string;
  lo_level : option LogLevel;
  lo_transports : option (list LogTransport);
  lo_includeTimestamp : option bool
}.

Definition LEVEL_PRIORITY (level : LogLevel) : nat :=
  match level with
  | silent => 0
  | error => 1
  | warn => 2
  | info => 3
  | debug => 4
  end.

(** The fields of a [Logger]. *)
Record Logger : Type := mkLogger {
  namespace : option string;
  transports : list LogTransport;
  level : LogLevel
}.

(** What a call of [log] does: calls of transports, by their position in the
    list, and the reports [console.error("[Logger] Transport failure", err)]
    of rejected promises, which come once the loop is over. *)
Inductive LogEvent : Type :=
| TransportCalled (index : nat) (entry : LogEntry)
| TransportFailure (err : Thrown).

Section Environment.
Variable DEFAULT_LEVEL : LogLevel.
Variable consoleTransport : option bool → LogTransport.

(** [constructor] *)
Definition create (options : LoggerOptions) : Logger :=
  {| namespace := lo_namespace options;
     level := default DEFAULT_LEVEL (lo_level options);
     transports :=
       match lo_transports options with
       | Some (t :: ts) => t :: ts
       | _ => [consoleTransport (lo_includeTimestamp options)]
       end |}.

(** [Logger.silent()] *)
Definition createSilent : Logger :=
  create (mkLoggerOptions None (Some silent) None None).

(** [child] *)
Definition child (l : Logger) (name : string) : Logger :=
  let childNamespace :=
    match namespace l with
    | Some parent => if JsString.truthy parent then parent +:+ ":" +:+ name else name
    | None => name
    end in
  create (mkLoggerOptions (Some childNamespace) (Some (level l)) (Some (transports l)) None).

End Environment.

(** [setLevel] *)
Definition setLevel (l : Logger) (newLevel : LogLevel) : Logger :=
  {| namespace := namespace l; transports := transports l; level := newLevel |}.

(** [shouldLog] *)
Definition shouldLog (l : Logger) (entryLevel : LogLevel) : bool :=
  if decide (level l = silent) then false
  else bool_decide (LEVEL_PRIORITY entryLevel ≤ LEVEL_PRIORITY (level l))%nat.

(** The [for] loop of [log]: the calls made, the failure reports that
    follow, and how the loop completes. *)
Fixpoint callTransports (entry : LogEntry) (index : nat) (ts : list LogTransport)
    : Completion unit * list LogEvent * list LogEvent :=
  match ts with
  | [] => (Returns tt, [], [])
  | transport :: ts' =>
      match transport entry with
      | ThrowsNow err => (Throws err, [TransportCalled index entry], [])
      | Delivered =>
          let '(completion, calls, failures) := callTransports entry (S index) ts' in
          (completion, TransportCalled index entry :: calls, failures)
      | RejectsLater err =>
          let '(completion, calls, failures) := callTransports entry (S index) ts' in
          (completion, TransportCalled index entry :: calls, TransportFailure err :: failures)
      end
  end.

(** [log], at clock reading [now]. *)
Definition log (l : Logger) (entryLevel : LogLevel) (message : string)
    (context : option (list (string * Json))) (err : option Thrown) (now : N)
    : Completion unit * list LogEvent :=
  if negb (shouldLog l entryLevel) then (Returns tt, [])
  else
    let entry :=
      {| entry_level := entryLevel;
         entry_message := message;
         entry_namespace := namespace l;
         entry_timestamp := now;
         entry_context := context;
         entry_error := err |} in
    let '(completion, calls, failures) := callTransports entry 0 (transports l) in
    (completion, (calls ++ failures)%list).

Definition logDebug (l : Logger) (message : string)
    (context : option (list (string * Json))) (now : N) :=
  log l debug message context None now.
Definition logInfo (l : Logger) (message : string)
    (context : option (list (string * Json))) (now : N) :=
  log l info message context None now.
Definition logWarn (l : Logger) (message : string)
    (context : option (list (string * Json))) (now : N) :=
  log l warn message context None now.
Definition logError (l : Logger) (message : string)
    (context : option (list (string * Json))) (err : option Thrown) (now : N) :=
  log l error message context err now.

(** Whether a transport throws when called with the entry. *)
Definition throwsOn (entry : LogEntry) (transport : LogTransport) : bool :=
  match transport entry with
  | ThrowsNow _ => true
  | _ => false
  end.

Definition isCall (e : LogEvent) : bool :=
  match e with
  | TransportCalled _ _ => true
  | TransportFailure _ => false
  end.

(** The entry that [log] builds. *)
Definition entryOf (l : Logger) (entryLevel : LogLevel) (message : string)
    (context : option (list (string * Json))) (err : option Thrown) (now : N) : LogEntry :=
  mkEntry entryLevel message (namespace l) now context err.

End Logger.

(** ** Notions used to state properties of runs *)

(** How often the transport was called in a run. *)
Fixpoint fetchCount (tr : list Event) : nat :=
  match tr with
  | [] => 0
  | EvFetch _ _ :: tr' => S (fetchCount tr')
  | _ :: tr' => fetchCount tr'
  end.

(** How often a body reader was called in a run. *)
Fixpoint readCount (tr : list Event) : nat :=
  match tr with
  | [] => 0
  | EvReadJson :: tr' | EvReadText :: tr' => S (readCount tr')
  | _ :: tr' => readCount tr'
  end.

Definition isLogError (e : Event) : bool :=
  match e with
  | EvLogError _ _ _ => true
  | _ => false
  end.

(** [{ ...options, timeoutMs: ms }] *)
Definition setTimeoutMs (options : RequestOptions) (ms : N) : RequestOptions :=
  mkOptions (opt_searchParams options) (opt_body options) (opt_headers options)
            (opt_errorLocale options) (Some ms) (opt_method options)
            (opt_signal options) (opt_other options).

(** ** More concrete requests, parameters and loggers *)
Module Examples.
Import Demo.

(** The client of the README, with its override for 418. *)
Definition teapot : Messages :=
  mkMessages es (λ loc, match loc with
                        | es => Some {[ 418 := "Soy una tetera" ]}
                        | en => None
                        end).

Definition plain : Messages := mkMessages es (λ _, None).

Definition aborted : Thrown := ThrownError "AbortError" "The operation was aborted".

Definition syntaxError : Thrown :=
  ThrownError "SyntaxError" "Unexpected end of JSON input".

Definition failingRequestInterceptor : ApiClientInterceptors :=
  mkInterceptors (Some (λ _ _, Throws aborted)) None.

Definition failingResponseInterceptor : ApiClientInterceptors :=
  mkInterceptors None (Some (λ _, Throws fetchFailed)).

(** A 500 that announces JSON and whose body does not parse. *)
Definition brokenError : Response :=
  mkResponse false 500 "Internal Server Error"
             (Headers_new [("Content-Type", "application/json")])
             (Throws syntaxError) (Returns "oops").

(** A 200 that announces JSON and whose body does not parse. *)
Definition brokenSuccess : Response :=
  mkResponse true 200 "OK"
             (Headers_new [("Content-Type", "application/json"); ("Content-Length", "4")])
             (Throws syntaxError) (Returns "oops").

Definition withPostMethod : RequestOptions :=
  mkOptions None None None None None (Some "POST") None [].

(** A platform like [Demo.platform] whose serializer is
    [StringUtils.toQueryString], keys compared byte by byte. *)
Definition stringUtilsPlatform : Platform := {|
  URL := Url;
  URL_parse := parse;
  URL_resolve := resolve;
  URL_search := url_search;
  URL_set_search q u := mkUrl (url_origin u) (url_pathname u) q;
  URL_toString := toString;
  JSON_stringify := stringify;
  JSON_stringify_nonempty := stringify_nonempty;
  toQueryString ps :=
    StringUtils.toQueryString String.compare
      (Some ((λ '(k, x), (k, StringUtils.ofJson x)) <$> ps)) StringUtils.noCustomOptions;
  globalFetch _ _ := NeverSettles
|}.

Definition stringUtilsClient : @ApiClient stringUtilsPlatform :=
  @mkClient stringUtilsPlatform (baseOf api) [] (transport NeverSettles) es
            (λ _, None) 15000%N None (Some quiet).

Definition nullishParams : list (string * StringUtils.Value) :=
  [("a", StringUtils.VNull); ("b", StringUtils.VUndefined); ("c", StringUtils.VArray [])].

Definition trickyParams : list (string * StringUtils.Value) :=
  [("q", StringUtils.VString "a&b=c"); ("k=", StringUtils.VString "v")].

(** Transports that deliver, reject later and throw. *)
Definition delivers : Logger.LogTransport := λ _, Logger.Delivered.
Definition rejects : Logger.LogTransport := λ _, Logger.RejectsLater fetchFailed.
Definition throws : Logger.LogTransport := λ _, Logger.ThrowsNow fetchFailed.

Definition logger (ts : list Logger.LogTransport) (level : Logger.LogLevel) : Logger.Logger :=
  Logger.mkLogger (Some "api") ts level.

End Examples.

(** * Properties *)

(** ** Strings *)

Lemma truthy_nonempty (s : string) : JsString.truthy s = true ↔ s ≠ EmptyString.
Proof. destruct s; simpl; split; intros; congruence. Qed.

Lemma truthy_app_l (s1 s2 : string) :
  JsString.truthy s1 = true → JsString.truthy (s1 +:+ s2) = true.
Proof. by destruct s1. Qed.

Lemma trimEnd_keeps_head (c : Ascii.ascii) (s : string) :
  JsString.isWhiteSpace c = false → JsString.truthy (JsString.trimEnd (String c s)) = true.
Proof. intros Hc. simpl. destruct (JsString.trimEnd s); by rewrite ?Hc. Qed.

Lemma trim_keeps_head (c : Ascii.ascii) (s : string) :
  JsString.isWhiteSpace c = false → JsString.truthy (JsString.trim (String c s)) = true.
Proof.
  intros Hc. unfold JsString.trim. simpl. rewrite Hc. by apply trimEnd_keeps_head.
Qed.

Lemma GENERIC_ERROR_MESSAGE_truthy (loc : Locale) (status : Z) (text : string) :
  JsString.truthy (GENERIC_ERROR_MESSAGE loc status text) = true.
Proof. destruct loc; by apply trim_keeps_head. Qed.

(** ** Error messages *)

Section MessageResolution.
Implicit Types (m : Messages) (loc : Locale) (status : Z).

Lemma localeDict_lookup m loc status :
  localeDict m loc !! status = Spec.lookupMessage (msg_errorMessages m) status loc.
Proof.
  unfold localeDict, Spec.lookupMessage. rewrite lookup_union.
  destruct (msg_errorMessages m loc) as [d|]; simpl.
  - destruct (d !! status), (DEFAULT_ERROR_MESSAGES loc !! status); done.
  - rewrite lookup_empty. by destruct (DEFAULT_ERROR_MESSAGES loc !! status).
Qed.

Lemma firstMessage_head m status (locales : list Locale) :
  firstMessage m status locales
  = head (omap (Spec.hit (msg_errorMessages m) status) locales).
Proof.
  induction locales as [|loc rest IH]; [done|].
  simpl. unfold Spec.hit at 1. rewrite localeDict_lookup.
  destruct (Spec.lookupMessage _ _ _) as [[|a msg]|]; simpl; done.
Qed.

Lemma getLocalePreference_spec m (override : option Locale) :
  getLocalePreference m override = Spec.localePreference (msg_locale m) override.
Proof. destruct m as [[] ?], override as [[]|]; reflexivity. Qed.

Lemma firstMessage_truthy m status (locales : list Locale) (msg : string) :
  firstMessage m status locales = Some msg → JsString.truthy msg = true.
Proof.
  induction locales as [|loc rest IH]; [done|]. simpl.
  destruct (localeDict m loc !! status) as [s|]; [|done].
  destruct (JsString.truthy s) eqn:Hs; [|done]. by intros [= <-].
Qed.

(** C10: an empty override shadows the built-in entry and is skipped by the
    loop; the resolved message is the entry of the other locale (its
    override, else its built-in message) when that is not empty, whatever
    the order of preference, and the generic message otherwise; it is never
    empty. *)
Theorem empty_override_is_skipped m status (statusText : string)
    (override : option Locale) loc (d : MessageDict) (rest : list Locale) :
  msg_errorMessages m loc = Some d →
  d !! status = Some EmptyString →
  localeDict m loc !! status = Some EmptyString
  ∧ firstMessage m status (loc :: rest) = firstMessage m status rest
  ∧ resolveErrorMessage m status statusText override
    = match Spec.lookupMessage (msg_errorMessages m) status (otherLocale loc) with
      | Some (String a msg) => String a msg
      | _ => GENERIC_ERROR_MESSAGE (msg_locale m) status statusText
      end
  ∧ (firstMessage m status (getLocalePreference m override) = None →
     resolveErrorMessage m status statusText override
     = GENERIC_ERROR_MESSAGE (msg_locale m) status statusText)
  ∧ resolveErrorMessage m status statusText override ≠ EmptyString.
Proof.
  intros Hd Hs.
  assert (localeDict m loc !! status = Some EmptyString) as Hdict.
  { rewrite localeDict_lookup. unfold Spec.lookupMessage. by rewrite Hd; simpl; rewrite Hs. }
  split_and!; [done | by simpl; rewrite Hdict | | |].
  - unfold resolveErrorMessage. rewrite getLocalePreference_spec.
    pose proof (localeDict_lookup m (otherLocale loc) status) as Hother.
    destruct (msg_locale m), override as [[]|], loc; simpl in *;
      rewrite ?Hdict, ?Hother; simpl;
      by destruct (Spec.lookupMessage _ _ _) as [[|a msg]|].
  - unfold resolveErrorMessage. by intros ->.
  - apply truthy_nonempty. unfold resolveErrorMessage.
    destruct (firstMessage _ _ _) as [msg|] eqn:Hfirst.
    + by eapply firstMessage_truthy.
    + apply GENERIC_ERROR_MESSAGE_truthy.
Qed.

End MessageResolution.

(** ** Headers *)

Lemma toLowerAscii_idem (a : Ascii.ascii) :
  JsString.toLowerAscii (JsString.toLowerAscii a) = JsString.toLowerAscii a.
Proof. destruct a as [[] [] [] [] [] [] [] []]; reflexivity. Qed.

Lemma toLowerCase_idem (s : string) :
  JsString.toLowerCase (JsString.toLowerCase s) = JsString.toLowerCase s.
Proof. induction s as [|a s IH]; simpl; [done|]. by rewrite toLowerAscii_idem, IH. Qed.

Lemma Headers_get_set (name name' value : string) (h : Headers) :
  Headers_get name' (Headers_set name value h)
  = if decide (JsString.toLowerCase name = JsString.toLowerCase name')
    then Some value else Headers_get name' h.
Proof. unfold Headers_get, Headers_set. apply lookup_insert. Qed.

Lemma lowerKeys_set (name value : string) (h : Headers) :
  lowerKeys h → lowerKeys (Headers_set name value h).
Proof.
  intros Hh. apply map_Forall_insert_2; [apply toLowerCase_idem | done].
Qed.

Lemma lowerKeys_new (init : HeadersInit) : lowerKeys (Headers_new init).
Proof.
  unfold Headers_new.
  assert (∀ h, lowerKeys h → lowerKeys (foldl (λ h kv, Headers_append kv.1 kv.2 h) h init))
    as Hfold.
  { induction init as [|[k v] init IH]; intros h Hh; [done|].
    simpl. apply IH. unfold Headers_append.
    destruct (Headers_get k h); by apply lowerKeys_set. }
  apply Hfold, map_Forall_empty.
Qed.

Lemma foldl_set_lookup (l : list (string * string)) (acc : Headers) (name : string) :
  Forall (λ kv, JsString.toLowerCase kv.1 = kv.1) l →
  NoDup l.*1 →
  foldl (λ a kv, Headers_set kv.1 kv.2 a) acc l !! name
  = match (list_to_map l : Headers) !! name with
    | Some v => Some v
    | None => acc !! name
    end.
Proof.
  revert acc. induction l as [|[k v] l IH]; intros acc Hlow Hnd; [done|].
  apply Forall_cons in Hlow as [Hk Hlow]. apply NoDup_cons in Hnd as [Hk' Hnd].
  simpl in *. rewrite IH by done. unfold Headers_set. rewrite Hk.
  destruct (decide (k = name)) as [->|Hne].
  - rewrite lookup_insert_eq.
    rewrite (not_elem_of_list_to_map_1 l name) by done.
    by rewrite lookup_insert_eq.
  - rewrite (lookup_insert_ne (list_to_map l)) by done.
    destruct (list_to_map l !! name); [done|]. by rewrite lookup_insert_ne.
Qed.

(** (Helper for C3.) Merged headers: a per-call override wins over a
    configured default of the same name, whatever the case of the names. *)
Lemma mergeHeaders_lookup {P : Platform} (c : ApiClient) (overrides : option HeadersInit)
    (name : string) :
  Headers_get name (mergeHeaders c overrides)
  = match overrides ≫= (λ o, Headers_get name (Headers_new o)) with
    | Some v => Some v
    | None => Headers_get name (Headers_new (headers c))
    end.
Proof.
  unfold mergeHeaders. destruct overrides as [o|]; [|done]. simpl.
  unfold Headers_get, Headers_forEach.
  rewrite foldl_set_lookup.
  - by rewrite list_to_map_to_list.
  - apply Forall_forall. intros [k v] Hin%elem_of_map_to_list.
    exact (lowerKeys_new o k v Hin).
  - apply NoDup_fst_map_to_list.
Qed.

(** ** The request pipeline *)

Section PipelineFacts.
Context {P : Platform}.
Implicit Types (c : ApiClient) (path url : string) (options : RequestOptions)
  (init : RequestInit) (r : Response).

Ltac unfold_request :=
  unfold run, request, dispatch, onError, toApiError, readJson, readText,
    withTimeout, tryCatch, bind, lift, emit, ret, throw.

Ltac unfold_log := unfold log, logged, bind, lift, emit, ret.

Ltac trace_solver :=
  repeat first [rewrite elem_of_cons | rewrite elem_of_app | rewrite elem_of_nil];
  intros;
  repeat first [rewrite elem_of_cons | rewrite elem_of_app | rewrite elem_of_nil];
  naive_solver.

Lemma log_run c (e : Event) (tr : list Event) :
  log c e tr = (logResult c e, (tr ++ logged c e)%list).
Proof.
  unfold log, logResult, logged, bind, emit, lift, ret.
  destruct (logger c); simpl; [done|]. by rewrite app_nil_r.
Qed.

Lemma elem_of_logged c (e e' : Event) : e' ∈ logged c e → e' = e.
Proof.
  unfold logged. destruct (logger c); rewrite ?elem_of_cons, ?elem_of_nil; naive_solver.
Qed.

Lemma timer_in_time (t ms : N) : (t ≤ timerDelay ms)%N → (t <=? timerDelay ms)%N = true.
Proof. apply N.leb_le. Qed.

Lemma Body_truthy_prepareBody (body : option Body) :
  Body_truthy (prepareBody body) = Body_truthy body.
Proof.
  unfold prepareBody. destruct body as [[s| | | |fields]|]; simpl; try done.
  - by destruct s.
  - apply JSON_stringify_nonempty.
Qed.

Lemma prepareRequest_plain c path options url :
  buildUrl c path (opt_searchParams options) = Returns url →
  interceptors c ≫= icpt_request = None →
  prepareRequest c path options = Returns (url, buildInit c options).
Proof. intros Hurl Hicpt. unfold prepareRequest. by rewrite Hurl, Hicpt. Qed.

(** The transport is called with nothing but what [prepareRequest]
    produced. *)
Lemma request_fetches_only c path options url init :
  prepareRequest c path options = Returns (url, init) →
  ∀ u i, EvFetch u i ∈ (run (request c path options)).2 → u = url ∧ i = init.
Proof.
  intros Hprep u i. unfold_request. unfold_log. rewrite Hprep. simpl.
  repeat (case_match; simplify_eq/=); trace_solver.
Qed.

(** Without a prepared request the transport is not called. *)
Lemma request_not_prepared c path options (err : Thrown) :
  prepareRequest c path options = Throws err →
  run (request c path options) = (Throws err, []).
Proof. intros Hprep. unfold_request. by rewrite Hprep. Qed.

(** It is called once the call of [logger.debug] that precedes the [try]
    block has returned. *)
Lemma request_fetches_made c path options url init :
  prepareRequest c path options = Returns (url, init) →
  logResult c (EvLogRequest (opt_method options) url (opt_body options)) = Returns tt →
  EvFetch url init ∈ (run (request c path options)).2.
Proof.
  intros Hprep Hlog. unfold_request. rewrite Hprep. simpl.
  rewrite log_run, Hlog. simpl. unfold_log.
  repeat (case_match; simplify_eq/=); trace_solver.
Qed.

(** C3 (as amended): with a body that is neither absent, empty nor form
    data, [Content-Type] is set to [application/json] whatever the merged
    headers held; every other header, and every header of a request without
    such a body, is the merged one, and an override wins in the merge. *)
Theorem content_type_is_overwritten c options (name : string) :
  Headers_get name (init_headers (buildInit c options))
  = (if Body_truthy (opt_body options) && negb (isFormData (opt_body options))
        && bool_decide (JsString.toLowerCase name = "content-type")
     then Some "application/json"
     else Headers_get name (mergeHeaders c (opt_headers options)))
  ∧ Headers_get name (mergeHeaders c (opt_headers options))
    = match opt_headers options ≫= (λ o, Headers_get name (Headers_new o)) with
      | Some v => Some v
      | None => Headers_get name (Headers_new (headers c))
      end.
Proof.
  split; [|apply mergeHeaders_lookup].
  unfold buildInit. simpl. rewrite Body_truthy_prepareBody.
  destruct (Body_truthy (opt_body options) && negb (isFormData (opt_body options)));
    simpl; [|done].
  rewrite Headers_get_set.
  change (JsString.toLowerCase "Content-Type") with "content-type".
  case_decide; case_bool_decide; congruence.
Qed.

(** C8 (as amended): a non-empty string, a blob, an array buffer and form
    data are the body of the request unchanged; any other value, a plain
    object, is there as its JSON text with [Content-Type:
    application/json]; an absent body, like the empty string, gives no body
    and the merged headers as they are, and so does form data for the
    headers.  Unless a request interceptor replaces it, this request is the
    only one the transport can receive, and the transport does receive it
    once the URL is built and the logger's [debug] call has returned. *)
Theorem body_preparation c options :
  match opt_body options with
  | None | Some (BodyString EmptyString) =>
      init_body (buildInit c options) = None
      ∧ init_headers (buildInit c options) = mergeHeaders c (opt_headers options)
  | Some (BodyFormData entries) =>
      init_body (buildInit c options) = Some (BodyFormData entries)
      ∧ init_headers (buildInit c options) = mergeHeaders c (opt_headers options)
  | Some (BodyObject fields) =>
      init_body (buildInit c options) = Some (BodyString (JSON_stringify (JObject fields)))
      ∧ Headers_get "Content-Type" (init_headers (buildInit c options))
        = Some "application/json"
  | Some body => init_body (buildInit c options) = Some body
  end
  ∧ ∀ path,
      interceptors c ≫= icpt_request = None →
      (∀ u i, EvFetch u i ∈ (run (request c path options)).2 → i = buildInit c options)
      ∧ (∀ url,
           buildUrl c path (opt_searchParams options) = Returns url →
           logResult c (EvLogRequest (opt_method options) url (opt_body options))
           = Returns tt →
           EvFetch url (buildInit c options) ∈ (run (request c path options)).2).
Proof.
  split.
  - unfold buildInit. simpl.
    destruct (opt_body options) as [[[|a s]|entries|bytes|bytes|fields]|]; simpl; try done.
    rewrite JSON_stringify_nonempty. simpl. split; [done|].
    by rewrite Headers_get_set, decide_True.
  - intros path Hicpt. split.
    + intros u i Hin.
      destruct (buildUrl c path (opt_searchParams options)) as [url|err] eqn:Hurl.
      * pose proof (prepareRequest_plain c path options url Hurl Hicpt) as Hprep.
        by destruct (request_fetches_only c path options url _ Hprep u i Hin).
      * assert (prepareRequest c path options = Throws err) as Hprep.
        { unfold prepareRequest. by rewrite Hurl. }
        rewrite (request_not_prepared c path options err Hprep) in Hin.
        by apply elem_of_nil in Hin.
    + intros url Hurl Hlog.
      apply request_fetches_made; [|done]. by apply prepareRequest_plain.
Qed.

(** C5: the token that the caller passes as [signal] is among the rest
    options, but the [RequestInit] that reaches the transport carries the
    signal of the request's own controller in its place. *)
Theorem caller_signal_is_replaced c path options (token : nat) url :
  opt_signal options = Some token →
  buildUrl c path (opt_searchParams options) = Returns url →
  interceptors c ≫= icpt_request = None →
  rest_signal (restOf options) = Some (CallerSignal token)
  ∧ init_signal (buildInit c options) = Some ControllerSignal
  ∧ (logResult c (EvLogRequest (opt_method options) url (opt_body options)) = Returns tt →
     EvFetch url (buildInit c options) ∈ (run (request c path options)).2)
  ∧ ∀ u i, EvFetch u i ∈ (run (request c path options)).2 →
           init_signal i ≠ Some (CallerSignal token).
Proof.
  intros Htoken Hurl Hicpt.
  pose proof (prepareRequest_plain c path options url Hurl Hicpt) as Hprep.
  split_and!.
  - unfold restOf. simpl. by rewrite Htoken.
  - done.
  - intros Hlog. by apply request_fetches_made.
  - intros u i Hin.
    by destruct (request_fetches_only c path options url _ Hprep u i Hin) as [_ ->].
Qed.

(** [toApiError] always returns, with the response's status and the
    message resolved for it. *)
Lemma toApiError_returns c r (loc : option Locale) (tr : list Event) :
  ∃ body tr',
    toApiError c r loc tr
    = (Returns (mkApiError (resp_status r) (resp_statusText r)
                  (resolveErrorMessage (messagesOf c) (resp_status r)
                     (resp_statusText r) loc)
                  body false), tr').
Proof.
  unfold toApiError, readJson, readText, tryCatch, bind, lift, emit, ret.
  destruct (JsString.includes _ _); simpl;
    [destruct (resp_json r) | destruct (resp_text r)]; simpl; eauto.
Qed.

(** A response that is not ok rejects the request with an [ApiError] that
    carries the response's status and the message resolved for it. *)
Lemma non_ok_response_rejects c path options url init (t : N) r (final : Response) :
  prepareRequest c path options = Returns (url, init) →
  fetchImpl c url init = Resolves t r →
  (t ≤ timerDelay (effectiveTimeout c options))%N →
  quietLogger c →
  finalResponseOf c r = Returns final →
  resp_ok final = false →
  ∃ body,
    (run (request c path options)).1
    = Throws (ThrownApiError
                (mkApiError (resp_status final) (resp_statusText final)
                   (resolveErrorMessage (messagesOf c) (resp_status final)
                      (resp_statusText final) (opt_errorLocale options))
                   body false)).
Proof.
  intros Hprep Hfetch Ht%timer_in_time Hquiet Hfinal Hok.
  unfold run, request, dispatch, onError, withTimeout, tryCatch, bind, lift, emit, ret, throw.
  rewrite Hprep. simpl. rewrite log_run, Hquiet. simpl.
  rewrite Hfetch. simpl. rewrite Ht, Hfinal. simpl. rewrite Hok. simpl.
  match goal with
  | |- context [toApiError c final ?loc ?tr] =>
      destruct (toApiError_returns c final loc tr) as (body & tr' & ->)
  end.
  simpl. rewrite log_run, Hquiet. simpl. eauto.
Qed.

(** C4: the locale list is the de-duplicated [override, configured, es, en];
    the message is the first hit over that list in the overrides merged over
    the built-in table; an "en" override on a 404 of an "es" client with no
    override for that entry yields "Resource not found."; this message is
    the one of the error that [toApiError] builds for a response, and of
    the error that the request is rejected with when a non-2xx response
    arrives before the timer fires and no call of the logger throws. *)
Theorem resolveErrorMessage_first_hit (m : Messages) (status : Z) (statusText : string)
    (override : option Locale) :
  getLocalePreference m override = Spec.localePreference (msg_locale m) override
  ∧ resolveErrorMessage m status statusText override
    = Spec.resolve m status statusText override
  ∧ (msg_locale m = es →
     msg_errorMessages m en ≫= (λ d, d !! 404) = None →
     resolveErrorMessage m 404 statusText (Some en) = "Resource not found.")
  ∧ (∀ c r (loc : option Locale) (tr : list Event),
      ∃ e, (toApiError c r loc tr).1 = Returns e
           ∧ err_status e = resp_status r
           ∧ err_message e
             = Spec.resolve (messagesOf c) (resp_status r) (resp_statusText r) loc)
  ∧ ∀ c path options url init (t : N) r (final : Response),
      prepareRequest c path options = Returns (url, init) →
      fetchImpl c url init = Resolves t r →
      (t ≤ timerDelay (effectiveTimeout c options))%N →
      quietLogger c →
      finalResponseOf c r = Returns final →
      resp_ok final = false →
      ∃ e, (run (request c path options)).1 = Throws (ThrownApiError e)
           ∧ err_status e = resp_status final
           ∧ err_message e
             = Spec.resolve (messagesOf c) (resp_status final) (resp_statusText final)
                            (opt_errorLocale options).
Proof.
  assert (∀ m' s text o, resolveErrorMessage m' s text o = Spec.resolve m' s text o)
    as Hspec.
  { intros m' s text o. unfold resolveErrorMessage, Spec.resolve.
    by rewrite firstMessage_head, getLocalePreference_spec. }
  split_and!.
  - apply getLocalePreference_spec.
  - apply Hspec.
  - intros Hloc Hov. unfold resolveErrorMessage.
    rewrite getLocalePreference_spec, Hloc. simpl.
    rewrite localeDict_lookup. unfold Spec.lookupMessage. by rewrite Hov.
  - intros c r loc tr.
    destruct (toApiError_returns c r loc tr) as (body & tr' & ->).
    eexists. split; [done|]. split; [done|]. simpl. apply Hspec.
  - intros c path options url init t r final Hprep Hfetch Ht Hquiet Hfinal Hok.
    destruct (non_ok_response_rejects c path options url init t r final)
      as [body Hout]; try done.
    eexists. split; [exact Hout|]. split; [done|]. simpl. apply Hspec.
Qed.

(** C1: when the transport has not settled by the time the timer fires, the
    request is rejected with the 408 timeout error, flagged as a timeout and
    without a body, unless a call of the logger throws, which then rejects
    the request with what it threw; the transport was called once the
    logger's [debug] call returned; and in every case the controller whose
    signal went to the transport is never aborted. *)
Theorem timeout_rejects_without_abort c path options url init :
  prepareRequest c path options = Returns (url, init) →
  settlesBefore (fetchImpl c url init) (effectiveTimeout c options) = false →
  ((run (request c path options)).1 = Throws (ThrownApiError timeoutError)
   ∨ ∃ (e : Event) (err : Thrown),
       logResult c e = Throws err ∧ (run (request c path options)).1 = Throws err)
  ∧ (logResult c (EvLogRequest (opt_method options) url (opt_body options)) = Returns tt →
     EvFetch url init ∈ (run (request c path options)).2)
  ∧ err_status timeoutError = 408
  ∧ err_isTimeout timeoutError = true
  ∧ err_body timeoutError = ErrNull
  ∧ ∀ s, EvAbort s ∉ (run (request c path options)).2.
Proof.
  intros Hprep Hlate. split_and!; try done.
  - unfold_request. rewrite Hprep. simpl. rewrite log_run.
    destruct (logResult c (EvLogRequest _ _ _)) as [[]|err] eqn:Hdebug; simpl;
      [|right; eauto].
    rewrite Hlate. simpl. rewrite log_run.
    destruct (logResult c (EvLogError _ _ _)) as [[]|err] eqn:Herror; simpl;
      [by left | right; eauto].
  - intros Hdebug. by apply request_fetches_made.
  - intros s. unfold_request. unfold_log. rewrite Hprep. simpl. rewrite Hlate.
    repeat (case_match; simplify_eq/=); trace_solver.
Qed.

(** What the request makes of a rejection of the transport that arrives
    before the timer fires, when no call of the logger throws. *)
Lemma rejection_run c path options url init (t : N) (err : Thrown) :
  prepareRequest c path options = Returns (url, init) →
  fetchImpl c url init = Rejects t err →
  (t ≤ timerDelay (effectiveTimeout c options))%N →
  quietLogger c →
  run (request c path options)
  = match Thrown_name err with
    | Throws typeError =>
        (Throws typeError,
         logged c (EvLogRequest (opt_method options) url (opt_body options))
         ++ [EvFetch url init])
    | Returns name =>
        if decide (name = Some "AbortError") then
          (Throws (ThrownApiError timeoutError),
           logged c (EvLogRequest (opt_method options) url (opt_body options))
           ++ [EvFetch url init])
        else
          (Throws err,
           logged c (EvLogRequest (opt_method options) url (opt_body options))
           ++ [EvFetch url init]
           ++ logged c (EvLogError path (opt_method options) err))
    end%list.
Proof.
  intros Hprep Hfetch Ht%timer_in_time Hquiet. unfold_request.
  rewrite Hprep. simpl. rewrite log_run, Hquiet. simpl. rewrite Hfetch. simpl.
  rewrite Ht. destruct (Thrown_name err) as [name|typeError]; [|done].
  case_decide; [done|]. rewrite log_run, Hquiet. simpl. by rewrite <- app_assoc.
Qed.


(** C2 (as amended): a 2xx response other than 204 that carries a non-empty
    [Content-Length] and arrives before the timer fires resolves to the
    parsed JSON when its [Content-Type] contains "json" in any case, and to
    the text otherwise, no call of the logger throwing. *)
Theorem success_payload c path options url init (t : N) r (final : Response) :
  prepareRequest c path options = Returns (url, init) →
  fetchImpl c url init = Resolves t r →
  (t ≤ timerDelay (effectiveTimeout c options))%N →
  quietLogger c →
  finalResponseOf c r = Returns final →
  resp_ok final = true →
  resp_status final ≠ 204 →
  JsString.truthy (default EmptyString
                     (Headers_get "content-length" (resp_headers final))) = true →
  let contentType :=
    default EmptyString (Headers_get "content-type" (resp_headers final)) in
  (JsString.test_json_i contentType = true →
   ∀ data, resp_json final = Returns data →
           (run (request c path options)).1 = Returns (PJson data))
  ∧ (JsString.test_json_i contentType = false →
     ∀ text, resp_text final = Returns text →
             (run (request c path options)).1 = Returns (PText text)).
Proof.
  intros Hprep Hfetch Ht%timer_in_time Hquiet Hfinal Hok Hstatus%Z.eqb_neq Hlen contentType.
  subst contentType.
  split; intros Hjson body Hbody; unfold_request.
  all: rewrite Hprep; simpl; rewrite log_run, Hquiet; simpl.
  all: rewrite Hfetch; simpl; rewrite Ht, Hfinal; simpl.
  all: rewrite Hok, Hstatus, Hlen; simpl; rewrite Hjson, Hbody; simpl.
  all: by rewrite log_run, Hquiet.
Qed.

(** C6 (as amended): a 2xx response that arrives before the timer fires and
    whose status is 204, or which has no [Content-Length] or an empty one,
    resolves to [undefined], no call of the logger throwing, and neither
    body reader is called. *)
Theorem no_content_is_undefined c path options url init (t : N) r (final : Response) :
  prepareRequest c path options = Returns (url, init) →
  fetchImpl c url init = Resolves t r →
  (t ≤ timerDelay (effectiveTimeout c options))%N →
  quietLogger c →
  finalResponseOf c r = Returns final →
  resp_ok final = true →
  resp_status final = 204
  ∨ Headers_get "content-length" (resp_headers final) = None
  ∨ Headers_get "content-length" (resp_headers final) = Some EmptyString →
  (run (request c path options)).1 = Returns PUndefined
  ∧ (EvReadJson ∉ (run (request c path options)).2)
  ∧ (EvReadText ∉ (run (request c path options)).2).
Proof.
  intros Hprep Hfetch Ht%timer_in_time Hquiet Hfinal Hok Hempty.
  assert (((resp_status final =? 204)
           || negb (JsString.truthy
                      (default EmptyString
                         (Headers_get "content-length" (resp_headers final))))) = true)
    as Hguard.
  { destruct Hempty as [->|[->| ->]]; [done|apply orb_true_r..]. }
  unfold_request.
  rewrite Hprep. simpl. rewrite log_run, Hquiet. simpl.
  rewrite Hfetch. simpl. rewrite Ht, Hfinal. simpl.
  rewrite Hok. simpl. rewrite Hguard. simpl. unfold logged.
  destruct (logger c); simpl; split_and!; try done; trace_solver.
Qed.

End PipelineFacts.

(** ** Further properties of the pipeline *)

Lemma rev_app_app (s1 s2 acc : string) :
  String.rev_app (s1 +:+ s2) acc = String.rev_app s2 (String.rev_app s1 acc).
Proof. revert acc. induction s1 as [|a s1 IH]; intros acc; simpl; [done|]. apply IH. Qed.

Lemma endsWith_slash_app (s : string) : JsString.endsWith "/" (s +:+ "/") = true.
Proof.
  unfold JsString.endsWith, String.rev. by rewrite rev_app_app.
Qed.

Lemma append_assoc (s1 s2 s3 : string) : (s1 +:+ s2) +:+ s3 = s1 +:+ (s2 +:+ s3).
Proof. induction s1 as [|a s1 IH]; [done|]. exact (f_equal (String a) IH). Qed.

Lemma trimEnd_last (s : string) (a : Ascii.ascii) :
  JsString.isWhiteSpace a = false →
  JsString.trimEnd (s +:+ String a EmptyString) = s +:+ String a EmptyString.
Proof.
  intros Ha. induction s as [|b s IH]; simpl.
  - by rewrite Ha.
  - change (String b s +:+ String a EmptyString)
      with (String b (s +:+ String a EmptyString)).
    simpl. rewrite IH. by destruct s.
Qed.

Lemma DEFAULT_ERROR_MESSAGES_truthy (loc : Locale) (status : Z) (msg : string) :
  DEFAULT_ERROR_MESSAGES loc !! status = Some msg → JsString.truthy msg = true.
Proof.
  revert status msg.
  change (map_Forall (λ _ msg, JsString.truthy msg = true) (DEFAULT_ERROR_MESSAGES loc)).
  apply map_Forall_to_list. destruct loc; vm_compute; repeat constructor.
Qed.

(** X1: the entry of the first locale of the preference list (the per-call
    override, else the configured locale) decides the message whenever it is
    non-empty: a configured override wins over the built-in entry, and
    without an override the built-in entry is returned as it is. *)
Theorem first_preference_wins (m : Messages) (status : Z) (statusText : string)
    (override : option Locale) :
  let first := default (msg_locale m) override in
  (∀ (d : MessageDict) (msg : string),
      msg_errorMessages m first = Some d →
      d !! status = Some msg →
      msg ≠ EmptyString →
      resolveErrorMessage m status statusText override = msg)
  ∧ (∀ msg : string,
      msg_errorMessages m first ≫= (λ d, d !! status) = None →
      DEFAULT_ERROR_MESSAGES first !! status = Some msg →
      resolveErrorMessage m status statusText override = msg).
Proof.
  intros first.
  assert (∀ msg, localeDict m first !! status = Some msg →
                 JsString.truthy msg = true →
                 resolveErrorMessage m status statusText override = msg) as Hfirst.
  { intros msg Hdict Hmsg. unfold resolveErrorMessage.
    assert (∃ rest, getLocalePreference m override = first :: rest) as [rest ->].
    { subst first. destruct m as [[] ?], override as [[]|]; simpl; eauto. }
    simpl. by rewrite Hdict, Hmsg. }
  split.
  - intros d msg Hd Hmsg Hne. apply Hfirst; [|by apply truthy_nonempty].
    rewrite localeDict_lookup. unfold Spec.lookupMessage. by rewrite Hd; simpl; rewrite Hmsg.
  - intros msg Hnone Hdef. apply Hfirst.
    + rewrite localeDict_lookup. unfold Spec.lookupMessage. by rewrite Hnone.
    + by eapply DEFAULT_ERROR_MESSAGES_truthy.
Qed.

(** X2: when neither locale has a non-empty entry for the status, the
    message is the generic one in the client's configured locale, whatever
    the per-call override. *)
Theorem generic_fallback_ignores_override (m : Messages) (status : Z)
    (statusText : string) (override : option Locale) :
  (∀ loc msg, localeDict m loc !! status = Some msg → msg = EmptyString) →
  resolveErrorMessage m status statusText override
  = GENERIC_ERROR_MESSAGE (msg_locale m) status statusText.
Proof.
  intros Hnone. unfold resolveErrorMessage.
  assert (∀ locales, firstMessage m status locales = None) as ->; [|done].
  induction locales as [|loc rest IH]; [done|]. simpl.
  destruct (localeDict m loc !! status) as [msg|] eqn:Hdict; [|done].
  by rewrite (Hnone loc msg Hdict).
Qed.

(** X3: trimming never changes the generic message: it is the template
    around the status and the status text, inner space included even when
    the status text is empty. *)
Theorem generic_message_is_the_template (loc : Locale) (status : Z) (statusText : string) :
  GENERIC_ERROR_MESSAGE loc status statusText
  = (match loc with es => "Error de red (" | en => "Network error (" end)
      +:+ pretty status +:+ " " +:+ statusText +:+ ")".
Proof.
  assert (∀ (a : Ascii.ascii) (s t : string),
             JsString.isWhiteSpace a = false →
             JsString.trim (String a s +:+ t +:+ ")") = String a s +:+ t +:+ ")") as Htrim.
  { intros a s t Ha. unfold JsString.trim.
    change (String a s +:+ t +:+ ")") with (String a (s +:+ t +:+ ")")).
    simpl. rewrite Ha.
    change (String a (s +:+ t +:+ ")")) with (String a s +:+ t +:+ ")").
    rewrite <- append_assoc. by apply trimEnd_last. }
  destruct loc; unfold GENERIC_ERROR_MESSAGE.
  - rewrite <- (append_assoc (pretty status)), <- (append_assoc (pretty status +:+ " ")).
    by apply Htrim.
  - rewrite <- (append_assoc (pretty status)), <- (append_assoc (pretty status +:+ " ")).
    by apply Htrim.
Qed.

Section PipelineMore.
Context {P : Platform}.
Implicit Types (c : ApiClient) (path url : string) (options : RequestOptions)
  (init : RequestInit) (r : Response).

Ltac unfold_run :=
  unfold run, request, dispatch, onError, toApiError, readJson, readText,
    withTimeout, tryCatch, bind, lift, emit, ret, throw.

Ltac unfold_log := unfold log, logged, bind, lift, emit, ret.

Ltac in_trace :=
  repeat first [rewrite elem_of_cons | rewrite elem_of_app | rewrite elem_of_nil];
  intros;
  repeat first [rewrite elem_of_cons | rewrite elem_of_app | rewrite elem_of_nil];
  naive_solver.

(** X4: a request calls the transport exactly once when its URL and init
    could be prepared and the logger's [debug] call before the [try] block
    returned, and not at all otherwise: nothing is retried, whatever the
    transport, the interceptors or the response do. *)
Theorem one_attempt_only c path options :
  fetchCount (run (request c path options)).2
  = match prepareRequest c path options with
    | Returns (url, _) =>
        match logResult c (EvLogRequest (opt_method options) url (opt_body options)) with
        | Returns _ => 1%nat
        | Throws _ => 0%nat
        end
    | Throws _ => 0%nat
    end.
Proof.
  unfold_run. unfold logResult. unfold_log.
  destruct (prepareRequest c path options) as [[url init]|e]; simpl; [|done].
  repeat (case_match; simplify_eq/=); done.
Qed.

(** X5: an error thrown by the request interceptor rejects the request as it
    is, before the transport is called and without any log entry; it is not
    turned into a timeout even when it is named AbortError. *)
Theorem request_interceptor_failure c path options url
    (f : string → RequestInit → Completion (string * RequestInit)) (err : Thrown) :
  buildUrl c path (opt_searchParams options) = Returns url →
  interceptors c ≫= icpt_request = Some f →
  f url (buildInit c options) = Throws err →
  run (request c path options) = (Throws err, []).
Proof.
  intros Hurl Hicpt Hf. unfold_run. unfold prepareRequest.
  by rewrite Hurl, Hicpt, Hf.
Qed.

(** X6: a rejection of the transport named AbortError, arriving before the
    timer fires, rejects the request with the 408 timeout error, and unlike
    other failures it is not logged as an error (no call of the logger
    throwing). *)
Theorem abort_rejection_becomes_timeout c path options url init (t : N) (err : Thrown) :
  prepareRequest c path options = Returns (url, init) →
  fetchImpl c url init = Rejects t err →
  (t ≤ timerDelay (effectiveTimeout c options))%N →
  quietLogger c →
  Thrown_name err = Returns (Some "AbortError") →
  (run (request c path options)).1 = Throws (ThrownApiError timeoutError)
  ∧ ∀ e, e ∈ (run (request c path options)).2 → isLogError e = false.
Proof.
  intros Hprep Hfetch Ht Hquiet Hname.
  rewrite (rejection_run c path options url init t err Hprep Hfetch Ht Hquiet), Hname.
  rewrite decide_True by done. simpl. split; [done|].
  intros e [->%elem_of_logged| ->%list_elem_of_singleton]%elem_of_app; done.
Qed.

(** X7: a timeout raised by the timer is caught by the request's own catch
    block and, with a logger configured whose [debug] call returned, handed
    to the logger as a failed request. *)
Theorem timeout_is_logged c path options url init (handle : LoggerHandle) :
  prepareRequest c path options = Returns (url, init) →
  settlesBefore (fetchImpl c url init) (effectiveTimeout c options) = false →
  logger c = Some handle →
  handle (EvLogRequest (opt_method options) url (opt_body options)) = Returns tt →
  (run (request c path options)).2
  = [ EvLogRequest (opt_method options) url (opt_body options);
      EvFetch url init;
      EvLogError path (opt_method options) (ThrownApiError timeoutError) ].
Proof.
  intros Hprep Hlate Hlog Hdebug. unfold_run. unfold_log. rewrite Hprep. simpl.
  rewrite Hlog. simpl. rewrite Hdebug. simpl. rewrite Hlate. simpl.
  unfold timeoutError.
  by destruct (handle (EvLogError _ _ _)).
Qed.

(** X8: for a response that is not ok and arrives before the timer fires,
    the error carries the response's status and status text, is not flagged
    as a timeout, and its body is best effort: the parsed JSON when
    [Content-Type] contains "json" in lower case, the text otherwise, and
    [null] when the reader fails (no call of the logger throwing). *)
Theorem error_body_is_best_effort c path options url init (t : N) r (final : Response) :
  prepareRequest c path options = Returns (url, init) →
  fetchImpl c url init = Resolves t r →
  (t ≤ timerDelay (effectiveTimeout c options))%N →
  quietLogger c →
  finalResponseOf c r = Returns final →
  resp_ok final = false →
  (run (request c path options)).1
  = Throws (ThrownApiError
              (mkApiError (resp_status final) (resp_statusText final)
                 (resolveErrorMessage (messagesOf c) (resp_status final)
                    (resp_statusText final) (opt_errorLocale options))
                 (if JsString.includes "json"
                       (default EmptyString
                          (Headers_get "content-type" (resp_headers final)))
                  then match resp_json final with
                       | Returns j => ErrJson j
                       | Throws _ => ErrNull
                       end
                  else match resp_text final with
                       | Returns s => ErrText s
                       | Throws _ => ErrNull
                       end)
                 false)).
Proof.
  intros Hprep Hfetch Ht%timer_in_time Hquiet Hfinal Hok. unfold_run.
  rewrite Hprep. simpl. rewrite log_run, Hquiet. simpl.
  rewrite Hfetch. simpl. rewrite Ht, Hfinal. simpl.
  rewrite Hok. simpl.
  destruct (JsString.includes _ _); simpl;
    [destruct (resp_json final) | destruct (resp_text final)]; simpl;
    by rewrite log_run, Hquiet.
Qed.

(** X9: when the body reader of a successful response that arrived before
    the timer fired fails, the request is rejected with the reader's error
    as it is (it is not wrapped in an ApiError), after the reader was called
    once (the error being an error object or a primitive not named
    AbortError, and no call of the logger throwing). *)
Theorem reader_failure_propagates c path options url init (t : N) r
    (final : Response) (err : Thrown) (name : option string) :
  prepareRequest c path options = Returns (url, init) →
  fetchImpl c url init = Resolves t r →
  (t ≤ timerDelay (effectiveTimeout c options))%N →
  quietLogger c →
  finalResponseOf c r = Returns final →
  resp_ok final = true →
  resp_status final ≠ 204 →
  JsString.truthy (default EmptyString
                     (Headers_get "content-length" (resp_headers final))) = true →
  (if JsString.test_json_i
        (default EmptyString (Headers_get "content-type" (resp_headers final)))
   then resp_json final = Throws err
   else resp_text final = Throws err) →
  Thrown_name err = Returns name →
  name ≠ Some "AbortError" →
  (run (request c path options)).1 = Throws err
  ∧ readCount (run (request c path options)).2 = 1%nat.
Proof.
  intros Hprep Hfetch Ht%timer_in_time Hquiet Hfinal Hok Hstatus%Z.eqb_neq Hlen
    Hread Hname Hnot.
  unfold_run.
  rewrite Hprep. simpl. rewrite log_run, Hquiet. simpl.
  rewrite Hfetch. simpl. rewrite Ht, Hfinal. simpl.
  rewrite Hok, Hstatus, Hlen. simpl.
  destruct (JsString.test_json_i _); rewrite Hread; simpl;
    rewrite Hname; simpl; rewrite decide_False by done;
    rewrite log_run, Hquiet; simpl; (split; [done|]);
    unfold logged; destruct (logger c); reflexivity.
Qed.

(** X10: when the response interceptor throws on a response that arrived
    before the timer fired, the request is rejected with that error and no
    body reader is called on the transport's response (the error being an
    error object or a primitive not named AbortError, and no call of the
    logger throwing). *)
Theorem response_interceptor_failure c path options url init (t : N) r (err : Thrown)
    (name : option string) :
  prepareRequest c path options = Returns (url, init) →
  fetchImpl c url init = Resolves t r →
  (t ≤ timerDelay (effectiveTimeout c options))%N →
  quietLogger c →
  finalResponseOf c r = Throws err →
  Thrown_name err = Returns name →
  name ≠ Some "AbortError" →
  (run (request c path options)).1 = Throws err
  ∧ (EvReadJson ∉ (run (request c path options)).2)
  ∧ (EvReadText ∉ (run (request c path options)).2).
Proof.
  intros Hprep Hfetch Ht%timer_in_time Hquiet Hfinal Hname Hnot. unfold_run.
  rewrite Hprep. simpl. rewrite log_run, Hquiet. simpl.
  rewrite Hfetch. simpl. rewrite Ht, Hfinal. simpl.
  rewrite Hname. simpl. rewrite decide_False by done.
  rewrite log_run, Hquiet. simpl. unfold logged.
  destruct (logger c); simpl; split_and!; try done; in_trace.
Qed.

(** X11: the shortcuts fix the method: whatever method the options name, the
    transport is called with GET, POST, PUT, PATCH or DELETE respectively
    (no request interceptor being configured). *)
Theorem shortcuts_fix_the_method c path options :
  interceptors c ≫= icpt_request = None →
  ∀ u i,
    (EvFetch u i ∈ (run (get c path options)).2 → init_method i = Some "GET")
    ∧ (EvFetch u i ∈ (run (post c path options)).2 → init_method i = Some "POST")
    ∧ (EvFetch u i ∈ (run (put c path options)).2 → init_method i = Some "PUT")
    ∧ (EvFetch u i ∈ (run (patch c path options)).2 → init_method i = Some "PATCH")
    ∧ (EvFetch u i ∈ (run (delete c path options)).2 → init_method i = Some "DELETE").
Proof.
  intros Hicpt u i.
  assert (∀ m, EvFetch u i ∈ (run (request c path (withMethod options m))).2 →
               init_method i = Some m) as Hm.
  { intros m Hin.
    destruct (buildUrl c path (opt_searchParams (withMethod options m))) as [url|e] eqn:Hurl.
    - pose proof (prepareRequest_plain c path _ url Hurl Hicpt) as Hprep.
      destruct (request_fetches_only c path _ url _ Hprep u i Hin) as [_ Hi].
      by rewrite Hi.
    - revert Hin. unfold_run. unfold prepareRequest. rewrite Hurl. simpl.
      by intros ?%elem_of_nil. }
  unfold get, post, put, patch, delete. split_and!; apply Hm.
Qed.

(** X12: every header name in the init that the pipeline builds is in lower
    case, whatever the case used in the configuration, in the per-call
    overrides or by the injected [Content-Type]. *)
Theorem init_headers_are_lower_case c options :
  lowerKeys (init_headers (buildInit c options)).
Proof.
  assert (lowerKeys (mergeHeaders c (opt_headers options))) as Hmerge.
  { unfold mergeHeaders. destruct (opt_headers options) as [o|]; [|apply lowerKeys_new].
    unfold Headers_forEach.
    generalize (map_to_list (Headers_new o)).
    generalize (lowerKeys_new (headers c)). generalize (Headers_new (headers c)).
    intros h Hh l. revert h Hh.
    induction l as [|[k v] l IH]; intros h Hh; [done|].
    simpl. by apply IH, lowerKeys_set. }
  unfold buildInit. simpl. case_match; [by apply lowerKeys_set | done].
Qed.

(** X13: a base address without a trailing separator gives the same client
    as the address with the separator added. *)
Theorem base_url_gets_trailing_separator (base : string)
    (defaultHeaders : option HeadersInit)
    (fetch : option (string → RequestInit → Promise Response))
    (loc : option Locale) (messages : option (Locale → option MessageDict))
    (ms : option N) (icpt : option ApiClientInterceptors) (lg : option LoggerHandle) :
  JsString.endsWith "/" base = false →
  createApiClient (mkConfig base defaultHeaders fetch loc messages ms icpt lg)
  = createApiClient (mkConfig (base +:+ "/") defaultHeaders fetch loc messages ms icpt lg).
Proof.
  intros Hbase. unfold createApiClient. simpl.
  by rewrite Hbase, endsWith_slash_app.
Qed.

(** X14: when the transport settles before the timer of the effective
    timeout fires, a larger per-call timeout, up to the largest delay that
    [setTimeout] takes (2^31 - 1 ms), changes nothing in the run. *)
Theorem larger_timeout_same_run c path options (ms : N) url init :
  prepareRequest c path options = Returns (url, init) →
  settlesBefore (fetchImpl c url init) (effectiveTimeout c options) = true →
  (effectiveTimeout c options ≤ ms)%N →
  (ms ≤ TIMEOUT_MAX)%N →
  run (request c path (setTimeoutMs options ms)) = run (request c path options).
Proof.
  intros Hprep Hsettles Hle Hmax.
  assert (timerDelay (effectiveTimeout c options) ≤ timerDelay ms)%N as Hdelay.
  { unfold timerDelay.
    destruct (1 <=? effectiveTimeout c options)%N eqn:H1,
             (effectiveTimeout c options <=? TIMEOUT_MAX)%N eqn:H2,
             (1 <=? ms)%N eqn:H3, (ms <=? TIMEOUT_MAX)%N eqn:H4; simpl;
      rewrite ?N.leb_le, ?N.leb_gt in *; lia. }
  assert (settlesBefore (fetchImpl c url init) ms = true) as Hsettles'.
  { destruct (fetchImpl c url init); simpl in *; try done; apply N.leb_le;
      apply N.leb_le in Hsettles; lia. }
  assert (prepareRequest c path (setTimeoutMs options ms) = Returns (url, init)) as Hprep'.
  { by rewrite <- Hprep. }
  unfold run, request, lift, bind. rewrite Hprep, Hprep'. simpl.
  unfold dispatch, withTimeout, bind, tryCatch.
  destruct (log c _ []) as [[] tr]; [|done].
  destruct (emit _ tr) as [[] tr']; [|done].
  change (effectiveTimeout c (setTimeoutMs options ms)) with ms.
  by rewrite Hsettles, Hsettles'.
Qed.

End PipelineMore.

(** ** The base prefix *)

Lemma append_nil_r (s : string) : s +:+ EmptyString = s.
Proof. induction s as [|a s IH]; [done|]. exact (f_equal (String a) IH). Qed.

Lemma lastChar_is_Some (a : Ascii.ascii) (s : string) : is_Some (lastChar (String a s)).
Proof. revert a. induction s as [|b s IH]; intros a; [by eexists|]. apply (IH b). Qed.

Lemma startsWith_slash_rev_app (s acc : string) :
  JsString.startsWith "/" (String.rev_app s acc)
  = match lastChar s with
    | Some c => bool_decide (c = slash)
    | None => JsString.startsWith "/" acc
    end.
Proof.
  revert acc. induction s as [|c s IH]; intros acc; [done|].
  change (String.rev_app (String c s) acc) with (String.rev_app s (String c acc)).
  rewrite IH. destruct s as [|b s].
  - simpl. case_decide; case_bool_decide; done.
  - change (lastChar (String c (String b s))) with (lastChar (String b s)).
    by destruct (lastChar_is_Some b s) as [x ->].
Qed.

Lemma endsWith_slash_lastChar (s : string) :
  JsString.endsWith "/" s = true ↔ lastChar s = Some slash.
Proof.
  unfold JsString.endsWith, String.rev.
  change (String.rev_app "/" EmptyString) with "/".
  rewrite startsWith_slash_rev_app. destruct (lastChar s) as [c|]; simpl.
  - rewrite bool_decide_eq_true. naive_solver.
  - done.
Qed.

Lemma lastChar_app (s t : string) :
  JsString.truthy t = true → lastChar (s +:+ t) = lastChar t.
Proof.
  intros Ht. induction s as [|a s IH]; [done|].
  change (String a s +:+ t) with (String a (s +:+ t)). simpl. rewrite IH.
  assert (JsString.truthy (s +:+ t) = true) as Hst by (by destruct s).
  by destruct (s +:+ t).
Qed.

Lemma includes_slash_lastChar (s : string) :
  lastChar s = Some slash → JsString.includes "/" s = true.
Proof.
  induction s as [|a s IH]; [done|]. intros Hlast.
  destruct s as [|b s].
  - simpl in Hlast. injection Hlast as ->. reflexivity.
  - change (JsString.includes "/" (String a (String b s)))
      with (JsString.startsWith "/" (String a (String b s))
            || JsString.includes "/" (String b s)).
    rewrite IH by done. apply orb_true_r.
Qed.

Lemma directory_closed (s : string) :
  lastChar s = Some slash → Demo.directory s = s.
Proof.
  induction s as [|a s IH]; [done|]. intros Hlast.
  change (Demo.directory (String a s))
    with (if JsString.includes "/" (String a s) then String a (Demo.directory s)
          else EmptyString).
  rewrite includes_slash_lastChar by done.
  destruct s as [|b s]; [done|]. by rewrite IH.
Qed.

Lemma lacks_app (a : Ascii.ascii) (s t : string) :
  lacks a (s +:+ t) = lacks a s && lacks a t.
Proof.
  induction s as [|b s IH]; [done|].
  change (String b s +:+ t) with (String b (s +:+ t)). simpl.
  by rewrite IH, andb_assoc.
Qed.

Lemma cutAt_lacks (a : Ascii.ascii) (s : string) :
  lacks a s = true → Demo.cutAt a s = (s, EmptyString).
Proof.
  induction s as [|b s IH]; [done|]. simpl.
  intros [Hb Hs]%andb_true_iff. rewrite (IH Hs). simpl.
  case_decide; [|done]. by rewrite bool_decide_eq_true_2 in Hb.
Qed.

Lemma cutAt_app (a : Ascii.ascii) (s t : string) :
  lacks a s = true → Demo.cutAt a (s +:+ String a t) = (s, String a t).
Proof.
  induction s as [|b s IH].
  - intros _. simpl. by rewrite decide_True.
  - change (String b s +:+ String a t) with (String b (s +:+ String a t)). simpl.
    intros [Hb Hs]%andb_true_iff. rewrite (IH Hs). simpl.
    case_decide; [|done]. by rewrite bool_decide_eq_true_2 in Hb.
Qed.

Lemma hostLabels_lacks (a : Ascii.ascii) (afterDot : bool) (host : string) :
  isLowerLetter a = false → a ≠ dot →
  hostLabels afterDot host = true → lacks a host = true.
Proof.
  intros Ha Hdot. revert afterDot.
  induction host as [|b host IH]; intros afterDot; [done|]. simpl.
  destruct (isLowerLetter b) eqn:Hb.
  - intros Hrest. rewrite (IH _ Hrest), bool_decide_eq_false_2; [done|].
    intros ->. congruence.
  - case_decide as Hbdot; [|done]. intros [_ Hrest]%andb_true_iff.
    rewrite (IH _ Hrest), bool_decide_eq_false_2; [done|]. congruence.
Qed.

Lemma pathChars_lacks (a : Ascii.ascii) (s : string) :
  isPathChar a = false → pathChars s = true → lacks a s = true.
Proof.
  intros Ha. induction s as [|b s IH]; [done|]. simpl.
  intros [Hb Hs]%andb_true_iff. rewrite (IH Hs), bool_decide_eq_false_2; [done|].
  intros ->. congruence.
Qed.

Lemma startsWith_lacks (a : Ascii.ascii) (p s : string) :
  JsString.startsWith p s = true → lacks a s = true → lacks a p = true.
Proof.
  revert s. induction p as [|b p IH]; intros s; [done|].
  destruct s as [|b' s]; [done|]. simpl.
  case_decide as Hb; [|done]. subst b'.
  intros Hp [Hb Hs]%andb_true_iff. by rewrite Hb, (IH s).
Qed.

Lemma schemeOf_lacks (s : string) : lacks colon s = true → Demo.schemeOf s = None.
Proof.
  intros Hs. unfold Demo.schemeOf.
  destruct (JsString.startsWith "https://" s) eqn:H1.
  { by pose proof (startsWith_lacks colon _ _ H1 Hs). }
  destruct (JsString.startsWith "http://" s) eqn:H2; [|done].
  by pose proof (startsWith_lacks colon _ _ H2 Hs).
Qed.

Lemma schemeOf_origin (secure : bool) (host rest : string) :
  Demo.schemeOf (originOf secure host +:+ rest)
  = Some (if secure then "https://" else "http://", host +:+ rest).
Proof. unfold originOf. rewrite append_assoc. by destruct secure. Qed.

Lemma plainHost_truthy (host : string) : plainHost host = true → JsString.truthy host = true.
Proof. by destruct host. Qed.

Lemma plainDirs_lastChar (dirs : string) :
  plainDirs dirs = true → lastChar ("/" +:+ dirs) = Some slash.
Proof.
  intros [_ [Hempty|Hends]%orb_true_iff]%andb_true_iff.
  - by destruct dirs.
  - rewrite lastChar_app; [by apply endsWith_slash_lastChar|].
    by destruct dirs.
Qed.

(** The base [origin/dirs] as [Demo.parse] reads it. *)
Lemma Demo_parse_base (secure : bool) (host dirs : string) :
  plainHost host = true → plainDirs dirs = true →
  Demo.parse (originOf secure host +:+ "/" +:+ dirs)
  = Some (Demo.mkUrl (originOf secure host) ("/" +:+ dirs) EmptyString).
Proof.
  intros Hhost Hdirs. unfold Demo.parse. rewrite schemeOf_origin.
  assert (pathChars dirs = true) as Hchars.
  { by apply andb_true_iff in Hdirs as [? _]. }
  rewrite (cutAt_lacks questionMark); simpl.
  - change ("/" +:+ dirs) with (String slash dirs).
    rewrite cutAt_app by (by eapply hostLabels_lacks).
    simpl. by rewrite plainHost_truthy.
  - rewrite lacks_app. apply andb_true_iff. split.
    + by eapply hostLabels_lacks.
    + by apply (pathChars_lacks questionMark (String slash dirs)).
Qed.

Lemma plainPath_relative (path : string) :
  plainPath path = true →
  JsString.startsWith "/" path = false
  ∧ JsString.startsWith "//" path = false
  ∧ JsString.startsWith "//" ("/" +:+ path) = false
  ∧ lacks questionMark path = true
  ∧ lacks colon path = true.
Proof.
  intros [Hchars Hrel%negb_true_iff]%andb_true_iff. split_and!.
  - done.
  - destruct path as [|a path]; [done|]. simpl in *. by case_decide.
  - change ("/" +:+ path) with (String slash path). simpl.
    by destruct path.
  - by apply pathChars_lacks.
  - by apply pathChars_lacks.
Qed.

(** [Demo.platform] resolves as the URL Standard says. *)
Lemma Demo_whatwg : WhatwgURL Demo.platform.
Proof.
  split.
  - intros secure host dirs path base Hhost Hdirs Hpath Hbase. simpl in *.
    rewrite Demo_parse_base in Hbase by done. injection Hbase as <-.
    destruct (plainPath_relative path Hpath) as (Hrel & Hrel2 & _ & Hquery & Hcolon).
    unfold Demo.resolve. rewrite Hrel2, Hrel.
    unfold Demo.parse. rewrite schemeOf_lacks by done.
    rewrite cutAt_lacks by done. cbn [fst snd].
    destruct path as [|a path]; cbn [JsString.truthy].
    + eexists. split; [done|]. unfold Demo.toString.
      cbn [Demo.url_origin Demo.url_pathname Demo.url_search].
      by rewrite !append_nil_r.
    + eexists. split; [done|]. unfold Demo.toString.
      cbn [Demo.url_origin Demo.url_pathname Demo.url_search].
      rewrite directory_closed by (by apply plainDirs_lastChar).
      by rewrite append_nil_r, !append_assoc.
  - intros secure host dirs path base Hhost Hdirs Hpath Hbase. simpl in *.
    rewrite Demo_parse_base in Hbase by done. injection Hbase as <-.
    destruct (plainPath_relative path Hpath) as (Hrel & _ & Hrel2 & Hquery & Hcolon).
    unfold Demo.resolve. rewrite Hrel2.
    change (JsString.startsWith "/" ("/" +:+ path)) with true. cbn iota.
    rewrite cutAt_lacks.
    + eexists. split; [done|]. unfold Demo.toString.
      cbn [Demo.url_origin Demo.url_pathname Demo.url_search fst snd].
      by rewrite append_nil_r.
    + exact Hquery.
  - intros secure host dirs Hhost Hdirs. simpl.
    by rewrite Demo_parse_base.
Qed.

Section BasePrefix.
Context {P : Platform} {W : WhatwgURL P}.


End BasePrefix.


(** ** The query-string serializer *)

Section QueryStringFacts.
Import StringUtils.
Variable localeCompare : string → string → comparison.
Implicit Types (options : Options) (key : string) (value : Value).

Lemma insertEntry_Permutation {A} (x : string * A) (l : list (string * A)) :
  insertEntry localeCompare x l ≡ₚ x :: l.
Proof.
  induction l as [|y l IH]; simpl; [done|].
  destruct (localeCompare x.1 y.1); try done.
  by rewrite IH, Permutation_swap.
Qed.

Lemma sortEntries_Permutation {A} (l : list (string * A)) :
  sortEntries localeCompare l ≡ₚ l.
Proof.
  induction l as [|x l IH]; simpl; [done|].
  by rewrite insertEntry_Permutation, IH.
Qed.

(** Sorting looks at the keys only: it commutes with any change of what is
    attached to them. *)
Lemma sortEntries_values {A B} (f : string → A → B) (l : list (string * A)) :
  sortEntries localeCompare (map (λ '(k, v), (k, f k v)) l)
  = map (λ '(k, v), (k, f k v)) (sortEntries localeCompare l).
Proof.
  induction l as [|[k v] l IH]; simpl; [done|]. rewrite IH.
  generalize (sortEntries localeCompare l). clear IH. intros sorted.
  induction sorted as [|[k' v'] sorted IH]; simpl; [done|].
  destruct (localeCompare k k'); simpl; try done. by rewrite IH.
Qed.

(** [buildQueryPairs] on an object, in the source's order of steps: the
    entries are sorted, then each one is serialized under its nested key. *)
Lemma buildQueryPairs_object options key (entries : list (string * Value)) :
  buildQueryPairs localeCompare options key (VObject entries)
  = concat
      (map (λ '(childKey, childValue),
              buildQueryPairs localeCompare options
                (if JsString.truthy key then key +:+ "[" +:+ childKey +:+ "]"
                 else childKey)
                childValue)
           (if sortKeys options then sortEntries localeCompare entries else entries)).
Proof.
  simpl. f_equal. destruct (sortKeys options).
  - rewrite (sortEntries_values
               (λ childKey childValue,
                  buildQueryPairs localeCompare options
                    (if JsString.truthy key then key +:+ "[" +:+ childKey +:+ "]"
                     else childKey) childValue)).
    rewrite map_map. apply map_ext. by intros [].
  - rewrite map_map. apply map_ext. by intros [].
Qed.

Lemma countChar_app (a : Ascii.ascii) (s1 s2 : string) :
  countChar a (s1 +:+ s2) = (countChar a s1 + countChar a s2)%nat.
Proof.
  induction s1 as [|b s1 IH]; [done|].
  change (String b s1 +:+ s2) with (String b (s1 +:+ s2)). simpl. rewrite IH. lia.
Qed.

Lemma countChar_concat (a : Ascii.ascii) (sep : string) (l : list string) :
  countChar a (String.concat sep l)
  = (sum_list (map (countChar a) l) + countChar a sep * pred (length l))%nat.
Proof.
  induction l as [|x l IH]; [simpl; lia|].
  destruct l as [|y l]; [simpl; lia|].
  change (String.concat sep (x :: y :: l))
    with (x +:+ sep +:+ String.concat sep (y :: l)).
  rewrite !countChar_app, IH. simpl. lia.
Qed.

(** Neither separator survives [encodeURIComponent]. *)
Lemma countChar_encodeURIComponent (a : Ascii.ascii) (s : string) :
  a = ampersand ∨ a = equalsSign → countChar a (encodeURIComponent s) = 0%nat.
Proof.
  intros Ha.
  assert (∀ b t, encodeURIComponent (String b t)
                 = encodeURIComponent (String b EmptyString) +:+ encodeURIComponent t)
    as Hchunk.
  { intros b t. simpl. by destruct (isUnreserved b). }
  assert (∀ b, countChar a (encodeURIComponent (String b EmptyString)) = 0%nat) as Hzero.
  { intros b. destruct Ha as [-> | ->];
      destruct b as [[] [] [] [] [] [] [] []]; reflexivity. }
  induction s as [|b s IH]; [done|].
  by rewrite Hchunk, countChar_app, Hzero, IH.
Qed.

(** Induction on values, through arrays and objects. *)
Lemma Value_nested_ind (Q : Value → Prop) :
  Q VUndefined → Q VNull → (∀ b, Q (VBool b)) → (∀ n, Q (VNumber n)) →
  (∀ s, Q (VString s)) →
  (∀ items, Forall Q items → Q (VArray items)) →
  (∀ entries, Forall (λ kv, Q kv.2) entries → Q (VObject entries)) →
  ∀ value, Q value.
Proof.
  intros Hu Hn Hb Hz Hs Ha Ho.
  fix IH 1. intros [| |b|n|s|items|entries].
  - exact Hu.
  - exact Hn.
  - exact (Hb b).
  - exact (Hz n).
  - exact (Hs s).
  - apply Ha. revert items. fix IHitems 1.
    intros [|x items]; constructor; [apply IH | apply IHitems].
  - apply Ho. revert entries. fix IHentries 1.
    intros [|[k x] entries]; constructor; [apply IH | apply IHentries].
Qed.

Lemma concat_map_Permutation {A B} (f : A → list B) (l l' : list A) :
  l ≡ₚ l' → concat (map f l) ≡ₚ concat (map f l').
Proof.
  induction 1 as [|x l l' _ IH|x y l|l l' l'' _ IH1 _ IH2]; simpl.
  - done.
  - by rewrite IH.
  - by rewrite !(assoc_L (++)), (comm (++) (f y)).
  - by rewrite IH1.
Qed.

Lemma concat_nil_Forall {A B} (f : A → list B) (l : list A) :
  Forall (λ x, f x = []) l → concat (map f l) = [].
Proof. induction 1 as [|x l Hx _ IH]; simpl; [done|]. by rewrite Hx, IH. Qed.

Lemma queryPairs_nothing options (entries : list (string * Value)) :
  skipNull options = true →
  Forall (λ kv, isNothing kv.2 = true) entries →
  queryPairs localeCompare options entries = [].
Proof.
  intros Hskip Hnothing. unfold queryPairs.
  assert (Forall (λ kv, isNothing kv.2 = true)
            (if sortKeys options then sortEntries localeCompare entries else entries))
    as Hsorted.
  { destruct (sortKeys options); [|done]. by rewrite sortEntries_Permutation. }
  apply concat_nil_Forall.
  eapply Forall_impl; [exact Hsorted|].
  intros [k [| | | | |[|??]|[|??]]] Hk; simpl in *; try done.
  - by rewrite Hskip.
  - by case_match.
Qed.

(** X15: with nulls skipped (the default), parameters whose values are all
    [undefined], [null], an empty array or an empty object serialize to the
    empty string, in any array format and with or without sorting. *)
Theorem nullish_params_give_nothing (entries : list (string * Value))
    (customOptions : QueryStringOptions) :
  skipNull (mergeOptions customOptions) = true →
  Forall (λ kv, isNothing kv.2 = true) entries →
  toQueryString localeCompare (Some entries) customOptions = EmptyString.
Proof.
  intros Hskip Hnothing. unfold toQueryString. cbv zeta.
  by rewrite queryPairs_nothing.
Qed.

(** X16: with encoding on (the default), the only "&" of the query string
    are those between pairs and the only "=" those inside a pair, whatever
    the keys and values contain. *)
Theorem separators_are_unambiguous (entries : list (string * Value))
    (customOptions : QueryStringOptions) :
  encode (mergeOptions customOptions) = true →
  countChar ampersand (toQueryString localeCompare (Some entries) customOptions)
  = pred (length (queryPairs localeCompare (mergeOptions customOptions) entries))
  ∧ countChar equalsSign (toQueryString localeCompare (Some entries) customOptions)
    = length (queryPairs localeCompare (mergeOptions customOptions) entries).
Proof.
  intros Henc. unfold toQueryString. cbv zeta. rewrite Henc.
  generalize (queryPairs localeCompare (mergeOptions customOptions) entries).
  intros pairs.
  assert (∀ a, a = ampersand ∨ a = equalsSign →
             sum_list
               (map (countChar a)
                    (map (λ '(key, value),
                            encodePair key true +:+ "=" +:+ encodePair value true) pairs))
             = (length pairs * countChar a "=")%nat) as Hsum.
  { intros a Ha. induction pairs as [|[k v] pairs IH]; [done|].
    rewrite !map_cons. change (sum_list (?x :: ?l)) with (x + sum_list l)%nat.
    rewrite IH, !countChar_app.
    unfold encodePair. rewrite !countChar_encodeURIComponent by done. simpl. lia. }
  rewrite !countChar_concat, !Hsum by auto. rewrite !length_map.
  split; vm_compute countChar; lia.
Qed.

(** X17: the three array formats, on an array of strings under a key:
    "repeat" gives one pair per element under the key, "bracket" one pair
    per element under the key followed by "[]", and "comma" a single pair
    whose value joins the elements; an empty array gives no pair at all. *)
Theorem array_formats options key (xs : list string) :
  skipEmptyString options = false →
  buildQueryPairs localeCompare options key (VArray (VString <$> xs))
  = match xs with
    | [] => []
    | _ :: _ =>
        match arrayFormat options with
        | FormatRepeat => (λ x, (key, x)) <$> xs
        | FormatBracket => (λ x, (key +:+ "[]", x)) <$> xs
        | FormatComma => [(key, String.concat "," xs)]
        end
    end.
Proof.
  intros Hskip.
  assert (∀ k, concat (buildQueryPairs localeCompare options k <$> (VString <$> xs))
               = (λ x, (k, x)) <$> xs) as Heach.
  { intros k. induction xs as [|x xs IH]; [done|].
    rewrite !fmap_cons. cbn [concat]. rewrite IH.
    cbn [buildQueryPairs serializeValue String_of]. by rewrite Hskip. }
  destruct xs as [|x xs]; [done|].
  change (VString <$> x :: xs) with (VString x :: (VString <$> xs)) in *.
  cbn [buildQueryPairs]. destruct (arrayFormat options).
  - apply Heach.
  - apply Heach.
  - rewrite Hskip, orb_true_r.
    assert (∀ ys : list string,
               List.filter (λ entry, negb (false && bool_decide (entry = EmptyString)))
                           (map serializeValue (VString <$> ys)) = ys) as Hfilter.
    { induction ys as [|y ys IHys]; [done|]. simpl. f_equal. exact IHys. }
    exact (f_equal (λ l, [(key, String.concat "," l)]) (Hfilter (x :: xs))).
Qed.

(** X18: a nested object is flattened into [parent[child]] keys; under the
    empty key the children keep their own names; with [sortKeys] the
    children come in the order of the sorted names. *)
Theorem nested_object_keys options key (fields : list (string * string)) :
  skipEmptyString options = false →
  buildQueryPairs localeCompare options key
    (VObject ((λ '(childKey, s), (childKey, VString s)) <$> fields))
  = (λ '(childKey, s),
       (if JsString.truthy key then key +:+ "[" +:+ childKey +:+ "]" else childKey, s))
    <$> (if sortKeys options then sortEntries localeCompare fields else fields).
Proof.
  intros Hskip. rewrite buildQueryPairs_object.
  assert (∀ l : list (string * string),
             concat
               ((λ '(childKey, childValue),
                   buildQueryPairs localeCompare options
                     (if JsString.truthy key then key +:+ "[" +:+ childKey +:+ "]"
                      else childKey) childValue)
                  <$> ((λ '(childKey, s), (childKey, VString s)) <$> l))
             = (λ '(childKey, s),
                  (if JsString.truthy key then key +:+ "[" +:+ childKey +:+ "]"
                   else childKey, s)) <$> l) as Hflat.
  { induction l as [|[k v] l IH]; [done|].
    rewrite !fmap_cons. cbn [concat]. rewrite IH.
    cbn [buildQueryPairs serializeValue String_of]. by rewrite Hskip. }
  destruct (sortKeys options); [|apply Hflat].
  rewrite <- Hflat. do 2 f_equal.
  apply (sortEntries_values (λ _ s, VString s)).
Qed.

(** X19: [sortKeys] only changes the order: with and without it, the same
    pairs are produced, each as often, at every level of nesting. *)
Theorem sorting_only_reorders (format : ArrayFormat) (skipN skipE enc : bool)
    (entries : list (string * Value)) :
  queryPairs localeCompare (mkQueryOptions format skipN skipE enc true) entries
  ≡ₚ queryPairs localeCompare (mkQueryOptions format skipN skipE enc false) entries.
Proof.
  set (sorted := mkQueryOptions format skipN skipE enc true).
  set (unsorted := mkQueryOptions format skipN skipE enc false).
  assert (∀ value key, buildQueryPairs localeCompare sorted key value
                       ≡ₚ buildQueryPairs localeCompare unsorted key value) as Hvalue.
  { induction value as [| | | | |items IH|fields IH] using Value_nested_ind;
      intros key; try done.
    - destruct items as [|item items]; [done|]. cbn [buildQueryPairs].
      change (arrayFormat sorted) with format. change (arrayFormat unsorted) with format.
      destruct format; try done.
      + generalize (item :: items) IH. clear. intros l IH.
        induction IH as [|x l Hx _ IHl]; [done|]. simpl. by rewrite Hx, IHl.
      + generalize (item :: items) IH. clear. intros l IH.
        induction IH as [|x l Hx _ IHl]; [done|]. simpl. by rewrite Hx, IHl.
    - rewrite !buildQueryPairs_object.
      change (sortKeys sorted) with true. change (sortKeys unsorted) with false.
      cbv iota.
      etrans.
      { apply concat_map_Permutation, sortEntries_Permutation. }
      induction IH as [|[k x] l Hx _ IHl]; [done|]. simpl. by rewrite Hx, IHl. }
  unfold queryPairs.
  change (sortKeys sorted) with true. change (sortKeys unsorted) with false. cbv iota.
  etrans.
  { apply concat_map_Permutation, sortEntries_Permutation. }
  induction entries as [|[k x] l IHl]; [done|]. simpl. by rewrite Hvalue, IHl.
Qed.

End QueryStringFacts.

(** ** The logger *)

Section LoggerFacts.
Import Logger.
Variable DEFAULT_LEVEL : LogLevel.
Variable consoleTransport : option bool → LogTransport.
Implicit Types (l : Logger) (entry : LogEntry) (ts : list LogTransport).

(** X20: the level filter.  A logger that is at least as verbose as another
    lets through whatever the other lets through; every logger that is not
    silent lets error entries through; debug entries pass at level debug
    only. *)
Theorem level_filter l l' (entryLevel : LogLevel) :
  ((LEVEL_PRIORITY (level l) ≤ LEVEL_PRIORITY (level l'))%nat →
   shouldLog l entryLevel = true → shouldLog l' entryLevel = true)
  ∧ (level l ≠ silent → shouldLog l error = true)
  ∧ (shouldLog l debug = true ↔ level l = debug).
Proof.
  unfold shouldLog. split_and!.
  - intros Hle. destruct (level l), (level l'), entryLevel; simpl in *;
      try done; lia.
  - by destruct (level l).
  - by destruct (level l).
Qed.

(** X21: a silent logger does nothing at all, whatever the level of the
    entry, and [Logger.silent()] is such a logger in every environment. *)
Theorem silent_logger_is_mute l (entryLevel : LogLevel) (message : string)
    (context : option (list (string * Json))) (err : option Thrown) (now : N) :
  (level l = silent → log l entryLevel message context err now = (Returns tt, []))
  ∧ log (createSilent DEFAULT_LEVEL consoleTransport) entryLevel message context err now
    = (Returns tt, []).
Proof.
  assert (level l = silent → log l entryLevel message context err now = (Returns tt, []))
    as Hmute.
  { intros Hsilent. unfold log, shouldLog. by rewrite Hsilent. }
  split; [exact Hmute|]. done.
Qed.

Lemma callTransports_all entry (index : nat) ts :
  Forall (λ t, throwsOn entry t = false) ts →
  callTransports entry index ts
  = (Returns tt,
     imap (λ i _, TransportCalled (index + i) entry) ts,
     omap (λ t, match t entry with
                | RejectsLater err => Some (TransportFailure err)
                | _ => None
                end) ts).
Proof.
  intros Hts. revert index.
  induction Hts as [|t ts Ht _ IH]; intros index; [done|].
  simpl. unfold throwsOn in Ht. rewrite IH.
  assert (imap ((λ i _, TransportCalled (index + i) entry) ∘ S) ts
          = imap (λ i _, TransportCalled (S index + i) entry) ts) as ->.
  { apply imap_ext. intros i x _. simpl. f_equal. lia. }
  rewrite Nat.add_0_r. by destruct (t entry).
Qed.

(** X22: when the entry passes the filter and no transport throws, [log]
    returns normally after calling every transport once, in order, with the
    same entry (level, message, the logger's namespace, the clock reading,
    context and error); each rejected promise is reported afterwards and
    changes nothing else. *)
Theorem log_reaches_every_transport l (entryLevel : LogLevel) (message : string)
    (context : option (list (string * Json))) (err : option Thrown) (now : N) :
  let entry := entryOf l entryLevel message context err now in
  shouldLog l entryLevel = true →
  Forall (λ t, throwsOn entry t = false) (transports l) →
  log l entryLevel message context err now
  = (Returns tt,
     imap (λ i _, TransportCalled i entry) (transports l)
     ++ omap (λ t, match t entry with
                   | RejectsLater e => Some (TransportFailure e)
                   | _ => None
                   end) (transports l))%list.
Proof.
  intros entry Hpass Hnothrow. unfold log. rewrite Hpass. simpl.
  fold (entryOf l entryLevel message context err now). fold entry.
  by rewrite (callTransports_all entry 0 (transports l) Hnothrow).
Qed.

Lemma callTransports_throw entry (index : nat) (before after : list LogTransport)
    (t : LogTransport) (e : Thrown) :
  Forall (λ t, throwsOn entry t = false) before →
  t entry = ThrowsNow e →
  ∃ calls failures,
    callTransports entry index (before ++ t :: after)%list = (Throws e, calls, failures)
    ∧ filter (λ ev, isCall ev = true) calls
      = imap (λ i _, TransportCalled (index + i) entry) (before ++ [t])%list
    ∧ Forall (λ ev, isCall ev = false) failures.
Proof.
  intros Hbefore Ht. revert index.
  induction Hbefore as [|t' before Ht' _ IH]; intros index.
  - simpl. rewrite Ht. eexists _, _. split; [done|]. split; [|done].
    simpl. by rewrite Nat.add_0_r.
  - destruct (IH (S index)) as (calls & failures & Hcall & Hcalls & Hfail).
    unfold throwsOn in Ht'. simpl. rewrite Hcall.
    assert (imap ((λ i _, TransportCalled (index + i) entry) ∘ S) (before ++ [t])%list
            = imap (λ i _, TransportCalled (S index + i) entry) (before ++ [t])%list) as Himap.
    { apply imap_ext. intros i x _. simpl. f_equal. lia. }
    destruct (t' entry); try done.
    + eexists _, _. split; [done|]. split; [|done].
      rewrite filter_cons_True by done. by rewrite Hcalls, Himap, Nat.add_0_r.
    + eexists _, _. split; [done|]. split; [|by constructor].
      rewrite filter_cons_True by done. by rewrite Hcalls, Himap, Nat.add_0_r.
Qed.

(** X23: a transport that throws ends the call: [log] throws the same error,
    the transports before it and the throwing one were called, and no
    transport after it is. *)
Theorem throwing_transport_stops_log l (entryLevel : LogLevel) (message : string)
    (context : option (list (string * Json))) (err : option Thrown) (now : N)
    (before after : list LogTransport) (t : LogTransport) (e : Thrown) :
  let entry := entryOf l entryLevel message context err now in
  shouldLog l entryLevel = true →
  transports l = (before ++ t :: after)%list →
  Forall (λ t, throwsOn entry t = false) before →
  t entry = ThrowsNow e →
  (log l entryLevel message context err now).1 = Throws e
  ∧ filter (λ ev, isCall ev = true) (log l entryLevel message context err now).2
    = imap (λ i _, TransportCalled i entry) (before ++ [t])%list.
Proof.
  intros entry Hpass Hts Hbefore Ht. unfold log. rewrite Hpass, Hts. simpl.
  fold (entryOf l entryLevel message context err now). fold entry.
  destruct (callTransports_throw entry 0 before after t e Hbefore Ht)
    as (calls & failures & -> & Hcalls & Hfail).
  simpl. split; [done|]. rewrite filter_app, Hcalls.
  assert (filter (λ ev, isCall ev = true) failures = []) as ->.
  { clear -Hfail. induction Hfail as [|ev failures Hev _ IH]; [done|].
    rewrite filter_cons_False by (by rewrite Hev). done. }
  by rewrite app_nil_r.
Qed.

(** X24: child loggers compose: the child named [b] of the child named [a]
    has the namespace of the child named [a:b], for a non-empty [a]; a child
    has its parent's level. *)
Theorem child_namespace_composes l (a b : string) :
  a ≠ EmptyString →
  namespace (child DEFAULT_LEVEL consoleTransport
               (child DEFAULT_LEVEL consoleTransport l a) b)
  = namespace (child DEFAULT_LEVEL consoleTransport l (a +:+ ":" +:+ b))
  ∧ level (child DEFAULT_LEVEL consoleTransport l a) = level l.
Proof.
  intros Ha%truthy_nonempty. split; [|done]. unfold child. simpl. f_equal.
  destruct (namespace l) as [parent|]; [destruct (JsString.truthy parent) eqn:Hparent|].
  - rewrite truthy_app_l by done. by rewrite !append_assoc.
  - by rewrite Ha.
  - by rewrite Ha.
Qed.

(** X25: a logger made by the constructor always has a transport: the given
    ones when there are any, the console transport otherwise, also for an
    empty list; [child] and [setLevel] keep the transports. *)
Theorem transports_never_empty (options : LoggerOptions) (name : string)
    (newLevel : LogLevel) :
  let l := create DEFAULT_LEVEL consoleTransport options in
  transports l ≠ []
  ∧ transports l
    = (if decide (default [] (lo_transports options) = [])
       then [consoleTransport (lo_includeTimestamp options)]
       else default [] (lo_transports options))
  ∧ transports (child DEFAULT_LEVEL consoleTransport l name) = transports l
  ∧ transports (setLevel l newLevel) = transports l.
Proof.
  intros l. subst l. unfold child, create. simpl.
  destruct (lo_transports options) as [[|t ts]|]; simpl; done.
Qed.

End LoggerFacts.

(** ** The serializer inside [buildUrl] *)

Section SearchParams.
Context {P : Platform}.
Variable localeCompare : string → string → comparison.

(** X26: on a platform whose serializer is [StringUtils.toQueryString] with
    its default options, search parameters that are all [null], an empty
    array or an empty object leave the URL as it is without parameters: no
    query string is set, not even a lone "?". *)
Theorem nullish_search_params_leave_url (c : ApiClient) (path : string)
    (ps : list (string * Json)) :
  toQueryString ps
  = StringUtils.toQueryString localeCompare
      (Some ((λ '(k, x), (k, StringUtils.ofJson x)) <$> ps)) StringUtils.noCustomOptions →
  Forall (λ kv, kv.2 = JNull ∨ kv.2 = JArray [] ∨ kv.2 = JObject []) ps →
  buildUrl c path (Some ps) = buildUrl c path None.
Proof.
  intros Hserializer Hnull. unfold buildUrl.
  destruct (URL_resolve _ (baseUrl c)) as [url|]; [|done].
  rewrite Hserializer. unfold StringUtils.toQueryString. cbv zeta.
  rewrite queryPairs_nothing; [done..|].
  clear Hserializer. induction Hnull as [|[k x] ps Hx _ IH]; [done|].
  rewrite fmap_cons. constructor; [|exact IH].
  simpl in *. by destruct Hx as [-> | [-> | ->]].
Qed.

End SearchParams.

(** ** The theorems at concrete requests *)

Section Instances.
Import Demo.

Lemma quiet_client (base : string) (p : Promise Response) : quietLogger (client base p).
Proof. intros e. reflexivity. Defined.

Lemma resolveErrorMessage_first_hit_witness :
  msg_locale (mkMessages es (λ _, None)) = es
  ∧ resolveErrorMessage (mkMessages es (λ _, None)) 404 "Not Found" (Some en)
    = "Resource not found."
  ∧ ∃ e, (run (get (client api (Resolves 5 notFound)) "/users" withEnglish)).1
         = Throws (ThrownApiError e)
         ∧ err_status e = 404
         ∧ err_message e = "Resource not found.".
Proof.
  split; [reflexivity|].
  destruct (resolveErrorMessage_first_hit (mkMessages es (λ _, None)) 404 "Not Found"
              (Some en)) as (_ & _ & Hscenario & _ & Hrequest).
  split; [exact (Hscenario eq_refl eq_refl)|].
  apply (Hrequest (client api (Resolves 5 notFound)) "/users"
           (withMethod withEnglish "GET") "https://api.test/users"
           (buildInit (client api (Resolves 5 notFound)) (withMethod withEnglish "GET"))
           5%N notFound notFound);
    [reflexivity | reflexivity | by vm_compute | apply quiet_client
    | reflexivity | reflexivity].
Defined.

Lemma empty_override_is_skipped_witness :
  msg_errorMessages emptyOverride es = Some {[ 404 := EmptyString ]}
  ∧ firstMessage emptyOverride 404 [es; en] = firstMessage emptyOverride 404 [en]
  ∧ resolveErrorMessage emptyOverride 404 "Not Found" None = "Resource not found."
  ∧ resolveErrorMessage emptyOverride 404 "Not Found" None ≠ EmptyString.
Proof.
  split; [reflexivity|].
  destruct (empty_override_is_skipped emptyOverride 404 "Not Found" None es
              {[ 404 := EmptyString ]} [en] eq_refl eq_refl)
    as (_ & Hskip & Hnext & _ & Hne).
  exact (conj Hskip (conj Hnext Hne)).
Defined.

Lemma timeout_rejects_without_abort_witness :
  settlesBefore (NeverSettles : Promise Response) 10 = false
  ∧ (run (get (client api NeverSettles) "/slow" (withTimeoutMs 10))).1
    = Throws (ThrownApiError timeoutError)
  ∧ EvFetch "https://api.test/slow"
            (buildInit (client api NeverSettles) (withMethod (withTimeoutMs 10) "GET"))
    ∈ (run (get (client api NeverSettles) "/slow" (withTimeoutMs 10))).2
  ∧ ∀ s, EvAbort s ∉ (run (get (client api NeverSettles) "/slow" (withTimeoutMs 10))).2.
Proof.
  split; [reflexivity|].
  destruct (timeout_rejects_without_abort (client api NeverSettles) "/slow"
              (withMethod (withTimeoutMs 10) "GET") "https://api.test/slow"
              (buildInit (client api NeverSettles) (withMethod (withTimeoutMs 10) "GET"))
              eq_refl eq_refl) as (Hout & Hfetch & _ & _ & _ & Habort).
  split_and!; [|exact (Hfetch eq_refl)|exact Habort].
  destruct Hout as [Hout|(e & err & Hthrows & _)]; [exact Hout|discriminate Hthrows].
Defined.

Lemma caller_signal_is_replaced_witness :
  opt_signal (withSignal 7) = Some 7%nat
  ∧ EvFetch "https://api.test/users" (buildInit (client api NeverSettles) (withSignal 7))
    ∈ (run (request (client api NeverSettles) "/users" (withSignal 7))).2
  ∧ ∀ u i, EvFetch u i ∈ (run (request (client api NeverSettles) "/users" (withSignal 7))).2 →
           init_signal i ≠ Some (CallerSignal 7).
Proof.
  split; [reflexivity|].
  destruct (caller_signal_is_replaced (client api NeverSettles) "/users" (withSignal 7) 7%nat
              "https://api.test/users" eq_refl eq_refl eq_refl)
    as (_ & _ & Hfetch & Hsignal).
  exact (conj (Hfetch eq_refl) Hsignal).
Defined.


Lemma body_preparation_witness :
  init_body (buildInit (client api NeverSettles)
                       (withBody (BodyObject [("name", JString "Ada")]) None))
  = Some (BodyString (stringify (JObject [("name", JString "Ada")])))
  ∧ EvFetch "https://api.test/users"
            (buildInit (client api NeverSettles)
                       (withBody (BodyObject [("name", JString "Ada")]) None))
    ∈ (run (request (client api NeverSettles) "/users"
                    (withBody (BodyObject [("name", JString "Ada")]) None))).2.
Proof.
  destruct (body_preparation (client api NeverSettles)
              (withBody (BodyObject [("name", JString "Ada")]) None))
    as [[Hbody _] Hrun].
  split; [exact Hbody|].
  exact (proj2 (Hrun "/users" eq_refl) "https://api.test/users" eq_refl eq_refl).
Defined.


Lemma success_payload_witness :
  (5 ≤ timerDelay 15000)%N
  ∧ (run (get (client api (Resolves 5 usersResponseSized)) "/users" noOptions)).1
    = Returns (PJson users).
Proof.
  split; [by vm_compute|].
  refine (proj1 (success_payload (client api (Resolves 5 usersResponseSized)) "/users"
                   (withMethod noOptions "GET") "https://api.test/users"
                   (buildInit (client api (Resolves 5 usersResponseSized))
                              (withMethod noOptions "GET"))
                   5 usersResponseSized usersResponseSized
                   eq_refl eq_refl _ (quiet_client api _) eq_refl eq_refl _ eq_refl)
                eq_refl users eq_refl).
  - by vm_compute.
  - discriminate.
Defined.

Lemma no_content_is_undefined_witness :
  resp_status noContent = 204
  ∧ (run (get (client api (Resolves 5 noContent)) "/users" noOptions)).1
    = Returns PUndefined.
Proof.
  split; [reflexivity|].
  apply (no_content_is_undefined (client api (Resolves 5 noContent)) "/users"
           (withMethod noOptions "GET") "https://api.test/users"
           (buildInit (client api (Resolves 5 noContent)) (withMethod noOptions "GET"))
           5 noContent noContent);
    [reflexivity | reflexivity | by vm_compute | apply quiet_client
    | reflexivity | reflexivity | left; reflexivity].
Defined.

(** ** Where the code departs from the specification *)

(** The success scenario of the specification, whose response has no
    [Content-Length]: the request resolves to [undefined], not to the
    payload.  With [Content-Length] present: a timeout of 2^31 ms makes the
    timer fire after 1 ms, before a response that takes 20 ms; and a logger
    whose transport throws rejects the request before the transport is
    called. *)
Lemma json_without_content_length :
  resp_status usersResponse = 200
  ∧ resp_json usersResponse = Returns users
  ∧ JsString.test_json_i
      (default EmptyString (Headers_get "content-type" (resp_headers usersResponse))) = true
  ∧ (run (get (client api (Resolves 5 usersResponse)) "/users" noOptions)).1
    = Returns PUndefined
  ∧ (run (get (client api (Resolves 5 usersResponse)) "/users" noOptions)).1
    ≠ Returns (PJson users)
  ∧ (run (get (client api (Resolves 20 usersResponseSized)) "/users"
              (withTimeoutMs 2147483648))).1
    = Throws (ThrownApiError timeoutError)
  ∧ run (get (clientLogging (Some throwing) (Resolves 5 usersResponseSized)) "/users"
             noOptions)
    = (Throws transportFailure, [EvLogRequest (Some "GET") "https://api.test/users" None]).
Proof. split_and!; try reflexivity. discriminate. Qed.

(** A caller's [Content-Type: text/plain] on a string body is in the merged
    headers and is replaced by the injected one. *)
Lemma caller_content_type_overwritten :
  Headers_get "Content-Type"
    (mergeHeaders (client api NeverSettles) (Some [("Content-Type", "text/plain")]))
  = Some "text/plain"
  ∧ Headers_get "Content-Type"
      (init_headers
         (buildInit (client api NeverSettles)
                    (withBody (BodyString "hello") (Some [("Content-Type", "text/plain")]))))
    = Some "application/json".
Proof. split; reflexivity. Qed.

(** A 200 with [Content-Length: 0]: the text reader is called and the request
    resolves to the empty text, not to [undefined].  A 204: with a timeout
    of 2^31 ms the timer fires after 1 ms, before a response that takes
    20 ms, and the request is rejected; with a logger whose transport throws
    it is rejected before the transport is called. *)
Lemma zero_content_length_is_read :
  resp_ok zeroLength = true
  ∧ Headers_get "content-length" (resp_headers zeroLength) = Some "0"
  ∧ (run (get (client api (Resolves 5 zeroLength)) "/ping" noOptions)).1
    = Returns (PText EmptyString)
  ∧ (run (get (client api (Resolves 5 zeroLength)) "/ping" noOptions)).1
    ≠ Returns PUndefined
  ∧ EvReadText ∈ (run (get (client api (Resolves 5 zeroLength)) "/ping" noOptions)).2
  ∧ (run (get (client api (Resolves 20 noContent)) "/ping" (withTimeoutMs 2147483648))).1
    = Throws (ThrownApiError timeoutError)
  ∧ (run (get (clientLogging (Some throwing) (Resolves 5 noContent)) "/ping" noOptions)).1
    = Throws transportFailure.
Proof.
  split_and!; try reflexivity; [discriminate|].
  apply list_elem_of_In. vm_compute. tauto.
Qed.

(** The empty string is a string body, and it is not passed through; a
    request interceptor can replace the body that was prepared, so that the
    transport receives another one; and when the logger's [debug] call
    throws, the transport receives nothing. *)
Lemma empty_string_body_is_dropped :
  prepareBody (Some (BodyString EmptyString)) = None
  ∧ init_body (buildInit (client api NeverSettles) (withBody (BodyString EmptyString) None))
    ≠ Some (BodyString EmptyString)
  ∧ (∀ u i,
       EvFetch u i ∈ (run (request (clientWith replacingBody NeverSettles) "/users"
                                   (withBody (BodyString "hello") None))).2 →
       init_body i = Some (BodyString "replaced"))
  ∧ EvFetch "https://api.test/users"
            (mkInit None None [] (Headers_new [("content-type", "application/json")])
                    (Some (BodyString "replaced")) (Some ControllerSignal))
    ∈ (run (request (clientWith replacingBody NeverSettles) "/users"
                    (withBody (BodyString "hello") None))).2
  ∧ fetchCount (run (request (clientLogging (Some throwing) NeverSettles) "/users"
                             (withBody (BodyString "hello") None))).2 = 0%nat.
Proof.
  split_and!; [reflexivity | discriminate | | | reflexivity].
  - intros u i Hin. apply list_elem_of_In in Hin. vm_compute in Hin.
    destruct Hin as [Hin|[Hin|[Hin|[]]]]; try discriminate.
    by injection Hin as <- <-.
  - apply list_elem_of_In. vm_compute. tauto.
Qed.



End Instances.

(** ** The further properties at concrete inputs *)

Section MoreInstances.
Import Demo Examples.

Lemma first_preference_wins_witness :
  resolveErrorMessage teapot 418 "I'm a teapot" None = "Soy una tetera"
  ∧ resolveErrorMessage plain 404 "Not Found" None
    = "El recurso solicitado no fue encontrado.".
Proof.
  split.
  - refine (proj1 (first_preference_wins teapot 418 "I'm a teapot" None)
              {[ 418 := "Soy una tetera" ]} "Soy una tetera" eq_refl eq_refl _).
    discriminate.
  - exact (proj2 (first_preference_wins plain 404 "Not Found" None)
             "El recurso solicitado no fue encontrado." eq_refl eq_refl).
Defined.

Lemma generic_fallback_ignores_override_witness :
  resolveErrorMessage plain 418 "I'm a teapot" (Some en)
  = GENERIC_ERROR_MESSAGE es 418 "I'm a teapot".
Proof.
  apply (generic_fallback_ignores_override plain 418 "I'm a teapot" (Some en)).
  intros [] msg; vm_compute; discriminate.
Defined.

Lemma request_interceptor_failure_witness :
  run (get (clientWith failingRequestInterceptor NeverSettles) "/users" noOptions)
  = (Throws aborted, []).
Proof.
  exact (request_interceptor_failure (clientWith failingRequestInterceptor NeverSettles)
           "/users" (withMethod noOptions "GET") "https://api.test/users"
           (λ _ _, Throws aborted) aborted eq_refl eq_refl eq_refl).
Defined.

Lemma abort_rejection_becomes_timeout_witness :
  Thrown_name aborted = Returns (Some "AbortError")
  ∧ (run (get (client api (Rejects 3 aborted)) "/users" noOptions)).1
    = Throws (ThrownApiError timeoutError).
Proof.
  split; [reflexivity|].
  refine (proj1 (abort_rejection_becomes_timeout (client api (Rejects 3 aborted)) "/users"
                   (withMethod noOptions "GET") "https://api.test/users"
                   (buildInit (client api (Rejects 3 aborted)) (withMethod noOptions "GET"))
                   3 aborted eq_refl eq_refl _ (quiet_client api _) eq_refl)).
  by vm_compute.
Defined.

Lemma timeout_is_logged_witness :
  last (run (get (client api NeverSettles) "/slow" (withTimeoutMs 10))).2
  = Some (EvLogError "/slow" (Some "GET") (ThrownApiError timeoutError)).
Proof.
  exact (eq_trans
           (f_equal last
              (timeout_is_logged (client api NeverSettles) "/slow"
                 (withMethod (withTimeoutMs 10) "GET") "https://api.test/slow"
                 (buildInit (client api NeverSettles) (withMethod (withTimeoutMs 10) "GET"))
                 quiet eq_refl eq_refl eq_refl eq_refl))
           eq_refl).
Defined.

Lemma error_body_is_best_effort_witness :
  (run (get (client api (Resolves 5 brokenError)) "/users" noOptions)).1
  = Throws (ThrownApiError
              (mkApiError 500 "Internal Server Error"
                          "Ocurrió un error interno en el servidor." ErrNull false)).
Proof.
  refine (error_body_is_best_effort (client api (Resolves 5 brokenError)) "/users"
            (withMethod noOptions "GET") "https://api.test/users"
            (buildInit (client api (Resolves 5 brokenError)) (withMethod noOptions "GET"))
            5 brokenError brokenError eq_refl eq_refl _ (quiet_client api _)
            eq_refl eq_refl).
  by vm_compute.
Defined.

Lemma reader_failure_propagates_witness :
  (run (get (client api (Resolves 5 brokenSuccess)) "/users" noOptions)).1
  = Throws syntaxError
  ∧ readCount (run (get (client api (Resolves 5 brokenSuccess)) "/users" noOptions)).2
    = 1%nat.
Proof.
  refine (reader_failure_propagates (client api (Resolves 5 brokenSuccess)) "/users"
            (withMethod noOptions "GET") "https://api.test/users"
            (buildInit (client api (Resolves 5 brokenSuccess)) (withMethod noOptions "GET"))
            5 brokenSuccess brokenSuccess syntaxError (Some "SyntaxError")
            eq_refl eq_refl _ (quiet_client api _) eq_refl eq_refl _ eq_refl eq_refl
            eq_refl _);
    [by vm_compute | discriminate | discriminate].
Defined.

Lemma response_interceptor_failure_witness :
  (run (get (clientWith failingResponseInterceptor (Resolves 5 usersResponseSized))
            "/users" noOptions)).1
  = Throws fetchFailed.
Proof.
  refine (proj1 (response_interceptor_failure
                   (clientWith failingResponseInterceptor (Resolves 5 usersResponseSized))
                   "/users" (withMethod noOptions "GET") "https://api.test/users"
                   (buildInit
                      (clientWith failingResponseInterceptor (Resolves 5 usersResponseSized))
                      (withMethod noOptions "GET"))
                   5 usersResponseSized fetchFailed (Some "TypeError")
                   eq_refl eq_refl _ _ eq_refl eq_refl _)).
  - by vm_compute.
  - intros e. reflexivity.
  - discriminate.
Defined.

Lemma shortcuts_fix_the_method_witness :
  opt_method withPostMethod = Some "POST"
  ∧ ∀ u i, EvFetch u i ∈ (run (get (client api NeverSettles) "/users" withPostMethod)).2 →
           init_method i = Some "GET".
Proof.
  split; [reflexivity|]. intros u i.
  exact (proj1 (shortcuts_fix_the_method (client api NeverSettles) "/users" withPostMethod
                  eq_refl u i)).
Defined.

Lemma base_url_gets_trailing_separator_witness :
  JsString.endsWith "/" "https://api.test" = false
  ∧ createApiClient (mkConfig "https://api.test" None None None None None None None)
    = createApiClient (mkConfig "https://api.test/" None None None None None None None).
Proof.
  split; [reflexivity|].
  exact (base_url_gets_trailing_separator "https://api.test" None None None None None None
           None eq_refl).
Defined.

Lemma larger_timeout_same_run_witness :
  run (get (client api (Resolves 5 usersResponseSized)) "/users" (withTimeoutMs 20000))
  = run (get (client api (Resolves 5 usersResponseSized)) "/users" (withTimeoutMs 10)).
Proof.
  refine (larger_timeout_same_run (client api (Resolves 5 usersResponseSized)) "/users"
            (withMethod (withTimeoutMs 10) "GET") 20000 "https://api.test/users"
            (buildInit (client api (Resolves 5 usersResponseSized))
                       (withMethod (withTimeoutMs 10) "GET"))
            eq_refl eq_refl _ _);
    by vm_compute.
Defined.

Lemma nullish_params_give_nothing_witness :
  StringUtils.toQueryString String.compare (Some nullishParams) StringUtils.noCustomOptions
  = EmptyString.
Proof.
  apply (nullish_params_give_nothing String.compare nullishParams
           StringUtils.noCustomOptions eq_refl).
  repeat constructor.
Defined.

Lemma separators_are_unambiguous_witness :
  StringUtils.countChar StringUtils.ampersand
    (StringUtils.toQueryString String.compare (Some trickyParams)
       StringUtils.noCustomOptions) = 1%nat
  ∧ StringUtils.countChar StringUtils.equalsSign
      (StringUtils.toQueryString String.compare (Some trickyParams)
         StringUtils.noCustomOptions) = 2%nat.
Proof.
  exact (separators_are_unambiguous String.compare trickyParams
           StringUtils.noCustomOptions eq_refl).
Defined.

Lemma array_formats_witness :
  StringUtils.buildQueryPairs String.compare StringUtils.DEFAULT_QUERY_OPTIONS "tags"
    (StringUtils.VArray [StringUtils.VString "a"; StringUtils.VString "b"])
  = [("tags", "a"); ("tags", "b")].
Proof.
  exact (array_formats String.compare StringUtils.DEFAULT_QUERY_OPTIONS "tags" ["a"; "b"]
           eq_refl).
Defined.

Lemma nested_object_keys_witness :
  StringUtils.buildQueryPairs String.compare StringUtils.DEFAULT_QUERY_OPTIONS "filter"
    (StringUtils.VObject [("z", StringUtils.VString "1"); ("a", StringUtils.VString "2")])
  = [("filter[a]", "2"); ("filter[z]", "1")].
Proof.
  exact (nested_object_keys String.compare StringUtils.DEFAULT_QUERY_OPTIONS "filter"
           [("z", "1"); ("a", "2")] eq_refl).
Defined.

Lemma level_filter_witness :
  Logger.shouldLog (logger [delivers] Logger.warn) Logger.error = true
  ∧ Logger.shouldLog (logger [delivers] Logger.debug) Logger.error = true.
Proof.
  split; [reflexivity|].
  refine (proj1 (level_filter (logger [delivers] Logger.warn)
                   (logger [delivers] Logger.debug) Logger.error) _ eq_refl).
  simpl. lia.
Defined.

Lemma silent_logger_is_mute_witness :
  Logger.log (logger [delivers] Logger.silent) Logger.error "Request failed" None None 0
  = (Returns tt, []).
Proof.
  exact (proj1 (silent_logger_is_mute Logger.debug (λ _, delivers)
                  (logger [delivers] Logger.silent) Logger.error "Request failed"
                  None None 0) eq_refl).
Defined.

Lemma log_reaches_every_transport_witness :
  (Logger.log (logger [delivers; rejects; delivers] Logger.debug) Logger.debug
              "HTTP Request" None None 7).1 = Returns tt
  ∧ length (Logger.log (logger [delivers; rejects; delivers] Logger.debug) Logger.debug
                       "HTTP Request" None None 7).2 = 4%nat.
Proof.
  rewrite (log_reaches_every_transport (logger [delivers; rejects; delivers] Logger.debug)
             Logger.debug "HTTP Request" None None 7 eq_refl).
  - split; reflexivity.
  - repeat constructor.
Defined.

Lemma throwing_transport_stops_log_witness :
  (Logger.log (logger [delivers; throws; delivers] Logger.debug) Logger.debug
              "HTTP Request" None None 7).1 = Throws fetchFailed.
Proof.
  refine (proj1 (throwing_transport_stops_log
                   (logger [delivers; throws; delivers] Logger.debug)
                   Logger.debug "HTTP Request" None None 7 [delivers] [delivers] throws
                   fetchFailed eq_refl eq_refl _ eq_refl)).
  repeat constructor.
Defined.

Lemma child_namespace_composes_witness :
  Logger.namespace
    (Logger.child Logger.debug (λ _, delivers)
       (Logger.child Logger.debug (λ _, delivers) (logger [delivers] Logger.info) "http")
       "retry")
  = Some "api:http:retry".
Proof.
  refine (eq_trans
            (proj1 (child_namespace_composes Logger.debug (λ _, delivers)
                      (logger [delivers] Logger.info) "http" "retry" _))
            eq_refl).
  discriminate.
Defined.

Lemma nullish_search_params_leave_url_witness :
  @buildUrl stringUtilsPlatform stringUtilsClient "/users"
            (Some [("page", JNull); ("tags", JArray [])])
  = Returns "https://api.test/users".
Proof.
  refine (eq_trans
            (@nullish_search_params_leave_url stringUtilsPlatform String.compare
               stringUtilsClient "/users" [("page", JNull); ("tags", JArray [])]
               eq_refl _)
            eq_refl).
  constructor; [left; reflexivity|].
  constructor; [right; left; reflexivity|].
  constructor.
Defined.

End MoreInstances.
